(** * Veritas: receipt witnessing, settlement and the ledger process

    A shallow embedding of the source files of the repository:

    - [lua/veritas-process.lua], the AO ledger process that stores receipts
      (module [Ledger]);
    - [src/arweave-settler.ts], the ledger client that batches receipts and
      sends them to the process (module [Settler]);
    - [src/http-server.ts], the HTTP server that witnesses decisions, keeps
      the pending and settled receipt maps and runs the settlement timer
      (module [Http]);
    - [src/index.ts], the MCP server, for its tool calls (module [Mcp]);
    - [scripts/spawn-process.mjs], for its wallet search (module [Spawn]).

    The members of a decision record and the body of a request are JSON
    values, as they are when the servers run: the TypeScript interfaces that
    declare them strings are not checked.  The values the ledger process
    decodes are Lua values, and a handler that raises an error sends no
    reply.

    Third-party code (node's [crypto], [JSON.parse], the AO [json] module,
    Lua's [tonumber], the network, and the parts of the JavaScript engine
    named in [JsEngine]) is not part of the repository; it enters the
    development as parameters, with the laws the proofs rely on stated as
    hypotheses. *)

From Stdlib Require Import Floats.PrimFloat.
From Stdlib Require Numbers.Cyclic.Int63.Uint63.
From Stdlib Require Import ZArith Ascii String List.
From stdpp Require Import base tactics option list gmap strings pretty.

Local Open Scope string_scope.

(** ** JavaScript and Lua values shared by the three modules *)

(** JavaScript strings are sequences of UTF-16 code units.  The free text of a
    decision record ([context], [logic], [action], [agent_id]) is kept in this
    form, because [charCodeAt], [length] and [substring] count code units.
    Identifiers, digests and signatures are ASCII and are kept as [string]. *)
Abbreviation jsstring := (list N).

Definition js (s : string) : jsstring :=
  map (fun a => N_of_ascii a) (list_ascii_of_string s).

(** [x || null] on an optional string: the empty string and [undefined] are
    both falsy. *)
Definition truthy {A} (o : option (list A)) : option (list A) :=
  match o with
  | Some (_ :: _) => o
  | _ => None
  end.

(** A value that [JSON.parse] yields.  The interfaces of the TypeScript files
    declare the members of a decision record as strings, but nothing checks
    it when the server runs: a member of a request body is whatever JSON
    value the client sent.  A number is an IEEE double; the members of an
    object come in the order of its own properties. *)
#[warnings="-register-all"]
Inductive jsvalue :=
| VNull
| VBool (b : bool)
| VNumber (x : PrimFloat.float)
| VString (s : jsstring)
| VArray (items : list jsvalue)
| VObject (members : list (jsstring * jsvalue)).

(** [ToBoolean]: [null], [false], [0], [-0], [NaN] and the empty string are
    falsy, every other value is truthy. *)
Definition ToBoolean (v : jsvalue) : bool :=
  match v with
  | VNull => false
  | VBool b => b
  | VNumber x => negb (PrimFloat.is_zero x || PrimFloat.is_nan x)
  | VString [] => false
  | VString (_ :: _) => true
  | VArray _ | VObject _ => true
  end.

(** [x || null] for an [x] that may be [undefined]; [None] stands for the
    [null] of the result. *)
Definition or_null (x : option jsvalue) : option jsvalue :=
  match x with
  | Some v => if ToBoolean v then Some v else None
  | None => None
  end.

(** The own property [key] of an object; [None] is [undefined]. *)
Fixpoint own_property (key : jsstring) (members : list (jsstring * jsvalue))
  : option jsvalue :=
  match members with
  | [] => None
  | (k, v) :: rest => if bool_decide (k = key) then Some v else own_property key rest
  end.

(** [v.key] for a [v] that is not [null], and a [key] that no prototype
    defines ([context], [logic], [action], [agent_id]): the own property of
    an object, and [undefined] on a boolean, a number, a string or an
    array. *)
Definition member (key : string) (v : jsvalue) : option jsvalue :=
  match v with
  | VObject members => own_property (js key) members
  | _ => None
  end.

(** What is left to the JavaScript engine: the decimal numeral that
    [JSON.stringify] writes for a finite number, and the conversion [ToNumber]
    of a string, an array or an object ([None] when it throws). *)
Class JsEngine := {
  Number_toString : PrimFloat.float -> jsstring;
  ToNumber : jsvalue -> option PrimFloat.float;
}.

Definition truthy_str (o : option string) : option string :=
  match o with
  | Some (String _ _) => o
  | _ => None
  end.

(** * The ledger process ([lua/veritas-process.lua]) *)

Module Ledger.

(** A Lua number is an integer or a float. *)
Inductive lua_number :=
| LInteger (z : Z)
| LFloat (f : PrimFloat.float).

(** Scalar values as [json.decode] hands them to the handlers. *)
Inductive lua_value :=
| LNil
| LBoolean (b : bool)
| LNumber (n : lua_number)
| LString (s : string).

(** An element of [data.receipts] that can be indexed: a table, or a string,
    which has none of the fields.  The handler reads [receipt_id], here
    absent or a string, and copies the other seven fields without looking at
    them. *)
Record ReceiptIn := {
  receipt_id : option string;
  hash : lua_value;
  signature : lua_value;
  timestamp_ms : lua_value;
  context_hash : lua_value;
  logic_summary : lua_value;
  action : lua_value;
  agent_id : lua_value;
}.

Record StoredReceipt := {
  s_receipt_id : string;
  s_hash : lua_value;
  s_signature : lua_value;
  s_timestamp_ms : lua_value;
  s_context_hash : lua_value;
  s_logic_summary : lua_value;
  s_action : lua_value;
  s_agent_id : lua_value;
  stored_at : Z;
  message_id : string;
}.

(** The global [State] table.  [ReceiptCount] is a Lua integer; the model
    leaves its 64-bit range aside, which no run of the process can reach. *)
Record State := {
  Receipts : gmap string StoredReceipt;
  ReceiptCount : Z;
  Owner : string;
  Frozen : bool;
  Version : string;
}.

(** An incoming AO message: sender, id, timestamp, the three tags the
    handlers read, and the raw data string. *)
Record Msg := {
  From : option string;
  Id : string;
  Timestamp : Z;
  TagAction : option string;
  TagReceiptId : option string;
  TagLimit : option string;
  Data : option string;
}.

(** An element of [data.receipts]: one that can be indexed, or a number or
    a boolean, on which [receipt.receipt_id] raises an error. *)
Inductive Element :=
| Table (r : ReceiptIn)
| Scalar.

(** The value of [data.receipts] when it is neither [nil] nor [false]: the
    elements that [ipairs] visits, up to the first [nil] (none for a string,
    and for a table without the integer key 1); or a number or [true], on
    which [ipairs] raises an error. *)
Inductive Batch :=
| Items (elements : list Element)
| NotIterable.

(** What a handler reads of a decoded [msg.Data] that can be indexed: a
    table, or a string, which has neither field. *)
Record Decoded := {
  d_receipts : option Batch;
  d_receipt_id : option string;
}.

(** What [json.decode] yields, when it yields something other than [nil] and
    [false]: a value that can be indexed, or a number or [true], on which
    reading a field raises an error. *)
Inductive Decoding :=
| Indexable (d : Decoded)
| NotIndexable.

Inductive ReplyData :=
| RError (error : string)
| RReceiptsStored (stored_count total_count : Z)
| RFrozen (frozen : bool)
| RReceipt (r : StoredReceipt)
| RNotFound (error : string) (rid : string)
| RReceiptList (receipts : list (string * lua_value * Z)) (total_count : Z)
| RVerificationResult (rid : option string) (exists_ : bool)
    (r_stored_at : option Z) (r_message_id : option string) (process_id : string)
| RStats (receipt_count : Z) (owner : string) (frozen : bool)
    (version : string) (process_id : string).

Record Reply := {
  Target : string;
  ReplyAction : string;
  Payload : ReplyData;
}.

Section Process.

(** [ao.id], [ao.env.Process.Owner], and the two library functions the
    handlers call: [json.decode] under [pcall] ([None] when it raises, and
    when it yields [nil] or [false]) and [tonumber].  A handler that raises
    an error sends no reply; the state it leaves is the one it had reached. *)
Variable ao_id : string.
Variable process_owner : option string.
Variable json_decode : string -> option Decoding.
Variable tonumber : string -> option lua_number.

Definition initial : State :=
  {| Receipts := ∅;
     ReceiptCount := 0;
     Owner := default ao_id process_owner;
     Frozen := false;
     Version := "0.1.0" |}.

Definition send_reply (msg : Msg) (act : string) (data : ReplyData) : list Reply :=
  match From msg with
  | None => []
  | Some from => [ {| Target := from; ReplyAction := act; Payload := data |} ]
  end.

Definition is_owner (st : State) (msg : Msg) : bool :=
  match From msg with
  | Some from => bool_decide (from = Owner st)
  | None => false
  end.

Definition parse_data (msg : Msg) : option Decoding :=
  match Data msg with
  | Some d => if bool_decide (d = "") then None else json_decode d
  | None => None
  end.

Definition store (msg : Msg) (rid : string) (r : ReceiptIn) : StoredReceipt :=
  {| s_receipt_id := rid;
     s_hash := hash r;
     s_signature := signature r;
     s_timestamp_ms := timestamp_ms r;
     s_context_hash := context_hash r;
     s_logic_summary := logic_summary r;
     s_action := action r;
     s_agent_id := agent_id r;
     stored_at := Timestamp msg;
     message_id := Id msg |}.

(** The body of the [for _, receipt in ipairs(data.receipts)] loop, on the
    pair of the state and the local [stored_count]. *)
Definition store_one (msg : Msg) (acc : State * Z) (r : ReceiptIn) : State * Z :=
  let '(st, stored_count) := acc in
  match receipt_id r with
  | Some rid =>
      match Receipts st !! rid with
      | None =>
          ({| Receipts := <[rid := store msg rid r]> (Receipts st);
              ReceiptCount := (ReceiptCount st + 1)%Z;
              Owner := Owner st;
              Frozen := Frozen st;
              Version := Version st |},
           (stored_count + 1)%Z)
      | Some _ => (st, stored_count)
      end
  | None => (st, stored_count)
  end.

(** The loop itself: it ends at the end of the elements, or at the first
    element that cannot be indexed, where the handler raises an error.  The
    result says which. *)
Fixpoint store_elements (msg : Msg) (acc : State * Z) (elements : list Element)
  : State * Z * bool :=
  match elements with
  | [] => (acc, false)
  | Table r :: rest => store_elements msg (store_one msg acc r) rest
  | Scalar :: _ => (acc, true)
  end.

Definition invalid_payload : ReplyData :=
  RError "Invalid payload: missing receipts array".

Definition StoreReceipts (msg : Msg) (st : State) : State * list Reply :=
  if Frozen st then
    (st, send_reply msg "Error" (RError "Process is frozen"))
  else if negb (is_owner st msg) then
    (st, send_reply msg "Error" (RError "Unauthorized: owner only"))
  else
    match parse_data msg with
    | Some (Indexable data) =>
        match d_receipts data with
        | Some (Items elements) =>
            match store_elements msg (st, 0%Z) elements with
            | (st', stored_count, false) =>
                (st', send_reply msg "ReceiptsStored"
                        (RReceiptsStored stored_count (ReceiptCount st')))
            | (st', _, true) => (st', [])
            end
        | Some NotIterable => (st, [])
        | None => (st, send_reply msg "Error" invalid_payload)
        end
    | Some NotIndexable => (st, [])
    | None => (st, send_reply msg "Error" invalid_payload)
    end.

Definition set_frozen (b : bool) (st : State) : State :=
  {| Receipts := Receipts st;
     ReceiptCount := ReceiptCount st;
     Owner := Owner st;
     Frozen := b;
     Version := Version st |}.

Definition Freeze (msg : Msg) (st : State) : State * list Reply :=
  if negb (is_owner st msg) then
    (st, send_reply msg "Error" (RError "Unauthorized: owner only"))
  else
    (set_frozen true st, send_reply msg "Frozen" (RFrozen true)).

Definition Unfreeze (msg : Msg) (st : State) : State * list Reply :=
  if negb (is_owner st msg) then
    (st, send_reply msg "Error" (RError "Unauthorized: owner only"))
  else
    (set_frozen false st, send_reply msg "Unfrozen" (RFrozen false)).

(** The id a query is about: the [Receipt-Id] tag, else the decoded
    [receipt_id], else the raw data.  Without the tag, reading [receipt_id]
    of a decoded number or [true] raises an error. *)
Inductive Requested :=
| Raises
| Asked (rid : option string).

Definition requested_id (msg : Msg) : Requested :=
  match TagReceiptId msg with
  | Some rid => Asked (Some rid)
  | None =>
      match parse_data msg with
      | Some (Indexable {| d_receipt_id := Some rid |}) => Asked (Some rid)
      | Some NotIndexable => Raises
      | _ => Asked (Data msg)
      end
  end.

Definition GetReceipt (msg : Msg) (st : State) : State * list Reply :=
  match requested_id msg with
  | Raises => (st, [])
  | Asked None | Asked (Some "") =>
      (st, send_reply msg "Error" (RError "Missing Receipt-Id"))
  | Asked (Some rid) =>
      match Receipts st !! rid with
      | Some receipt => (st, send_reply msg "Receipt" (RReceipt receipt))
      | None => (st, send_reply msg "NotFound" (RNotFound "Receipt not found" rid))
      end
  end.

(** The test [count >= limit] of the listing loop.  [count] is an integer;
    against a float limit Lua compares the two numbers as they are, which the
    conversion of [count] to a float does for a count below 2^53. *)
Definition reached (count : Z) (limit : lua_number) : bool :=
  match limit with
  | LInteger z => (z <=? count)%Z
  | LFloat f => PrimFloat.leb f (PrimFloat.of_uint63 (Uint63.of_Z count))
  end.

(** The loop [for receipt_id, receipt in pairs(State.Receipts)], which stops
    at the first count that has reached the limit. *)
Fixpoint list_loop (limit : lua_number) (count : Z)
    (entries : list (string * StoredReceipt)) : list (string * lua_value * Z) :=
  match entries with
  | [] => []
  | (rid, receipt) :: rest =>
      if reached count limit then []
      else (rid, s_timestamp_ms receipt, stored_at receipt)
             :: list_loop limit (count + 1) rest
  end.

(** [pairs] visits the table in an unspecified order; the model takes the
    order of [map_to_list]. *)
Definition ListReceipts (msg : Msg) (st : State) : State * list Reply :=
  let limit := default (LInteger 100) (TagLimit msg ≫= tonumber) in
  let receipts := list_loop limit 0 (map_to_list (Receipts st)) in
  (st, send_reply msg "ReceiptList" (RReceiptList receipts (ReceiptCount st))).

Definition VerifyReceipt (msg : Msg) (st : State) : State * list Reply :=
  match requested_id msg with
  | Raises => (st, [])
  | Asked rid =>
      let receipt := rid ≫= (fun k => Receipts st !! k) in
      (st, send_reply msg "VerificationResult"
             (RVerificationResult rid (bool_decide (is_Some receipt))
                (stored_at <$> receipt) (message_id <$> receipt) ao_id))
  end.

Definition GetStats (msg : Msg) (st : State) : State * list Reply :=
  (st, send_reply msg "Stats"
         (RStats (ReceiptCount st) (Owner st) (Frozen st) (Version st) ao_id)).

(** [Handlers.utils.hasMatchingTag("Action", name)]. *)
Definition hasMatchingTag (name : string) (msg : Msg) : bool :=
  bool_decide (TagAction msg = Some name).

(** The handlers in the order [Handlers.add] registers them; the first whose
    pattern matches runs. *)
Definition handle (msg : Msg) (st : State) : State * list Reply :=
  if hasMatchingTag "StoreReceipts" msg then StoreReceipts msg st
  else if hasMatchingTag "Freeze" msg then Freeze msg st
  else if hasMatchingTag "Unfreeze" msg then Unfreeze msg st
  else if hasMatchingTag "GetReceipt" msg then GetReceipt msg st
  else if hasMatchingTag "ListReceipts" msg then ListReceipts msg st
  else if hasMatchingTag "VerifyReceipt" msg then VerifyReceipt msg st
  else if hasMatchingTag "GetStats" msg then GetStats msg st
  else (st, []).

(** The process state after a sequence of messages. *)
Definition run (msgs : list Msg) (st : State) : State :=
  foldl (fun s m => (handle m s).1) st msgs.

(** [State.ReceiptCount] is the number of stored receipt ids. *)
Definition count_ok (st : State) : Prop :=
  ReceiptCount st = Z.of_nat (size (Receipts st)).

End Process.

End Ledger.


(** * Receipts, as both TypeScript files declare them *)

(** [WitnessRequest]: the decision record, as the four members that the code
    reads of the request body it keeps.  The interface declares them as
    strings; what is stored is the value the client sent, which the
    required-field check has found truthy for the first three.  [agent_id]
    may be [undefined]. *)
Record WitnessRequest := {
  context : jsvalue;
  logic : jsvalue;
  action : jsvalue;
  agent_id : option jsvalue;
}.

(** A decision record as the interface declares it: every member a string,
    [agent_id] possibly absent. *)
Definition string_request (context logic action : jsstring) (agent_id : option jsstring)
  : WitnessRequest :=
  {| context := VString context; logic := VString logic; action := VString action;
     agent_id := VString <$> agent_id |}.

(** The strings ["pending"], ["settled"] and ["failed"]. *)
Inductive Status := Pending | Settled | Failed.

Record WitnessReceipt := {
  receipt_id : string;
  signature : string;
  timestamp_ms : Z;
  hash : string;
  arweave_tx : option string;
  status : Status;
}.

(** [PendingReceipt extends WitnessReceipt] with [full_payload]. *)
Record PendingReceipt := {
  base : WitnessReceipt;
  full_payload : WitnessRequest;
}.

(** [Date.now()] read several times in one call: the [k]-th reading. *)
Abbreviation Clock := (nat -> Z).

(** * The ledger client ([src/arweave-settler.ts]) *)

Module Settler.

Inductive ResultStatus := r_settled | r_failed.

Record SettlementResult := {
  res_receipt_id : string;
  res_arweave_tx : option string;
  ao_message_id : option string;
  res_status : ResultStatus;
  error : option string;
}.

(** One element of [batchPayload.receipts]: what is disclosed of a receipt. *)
Record ReceiptSummary := {
  sm_receipt_id : string;
  sm_hash : string;
  sm_signature : string;
  sm_timestamp_ms : Z;
  context_hash : string;
  logic_summary : jsstring;
  sm_action : jsvalue;
  sm_agent_id : option jsvalue;
}.

Record BatchPayload := {
  type : string;
  count : nat;
  receipts : list ReceiptSummary;
  settled_at : Z;
}.

(** The wallet file's parsed content, when [loadWallet] finds one. *)
Inductive Wallet := Jwk (content : string).

(** The argument of [message(...)]; [data] is [JSON.stringify(batchPayload)],
    kept here before serialisation. *)
Record AoMessage := {
  process : string;
  signer : Wallet;
  tags : list (string * string);
  data : BatchPayload;
}.

(** ** [hashString] *)

(** [ToInt32]: the wrap-around of the bit operators [<<] and [&]. *)
Definition to_int32 (z : Z) : Z := ((z + 2 ^ 31) mod 2 ^ 32 - 2 ^ 31)%Z.

Definition hex_digit (n : N) : ascii :=
  match n with
  | 0 => "0" | 1 => "1" | 2 => "2" | 3 => "3" | 4 => "4" | 5 => "5"
  | 6 => "6" | 7 => "7" | 8 => "8" | 9 => "9" | 10 => "a" | 11 => "b"
  | 12 => "c" | 13 => "d" | 14 => "e" | _ => "f"
  end%N%char.

(** [n.toString(16)] for a natural number: lower-case digits, most
    significant first, no leading zero. *)
Fixpoint hex_digits (fuel : nat) (n : N) (acc : string) : string :=
  match fuel with
  | O => acc
  | S fuel' =>
      let acc' := String (hex_digit (n mod 16)) acc in
      if (n / 16 =? 0)%N then acc' else hex_digits fuel' (n / 16) acc'
  end.

Definition toString16 (n : N) : string :=
  hex_digits (S (N.to_nat (N.log2 n))) n "".

(** One iteration of the loop of [hashString]:
    [hash = ((hash << 5) - hash) + char; hash = hash & hash]. *)
Definition hash_step (hash : Z) (char : N) : Z :=
  let hash := (to_int32 (Z.shiftl hash 5) - hash + Z.of_N char)%Z in
  to_int32 hash.

Definition hashString (str : jsstring) : string :=
  let hash := foldl hash_step 0%Z str in
  toString16 (Z.to_N (Z.abs hash)).

(** ** [hashString] and [substring] on a value that need not be a string *)

Section Engine.

Context {engine : JsEngine}.

(** The test [0 < length] that the loop of [hashString] makes first, for the
    [length] member of an object; [None] when the conversion throws. *)
Definition zero_lt (len : jsvalue) : option bool :=
  match len with
  | VNull => Some false
  | VBool b => Some b
  | VNumber x => Some (PrimFloat.ltb PrimFloat.zero x)
  | _ => PrimFloat.ltb PrimFloat.zero <$> ToNumber len
  end.

(** [hashString(str)] for any value; [None] is a [TypeError].  On a string
    it is the function above.  A boolean and a number have no [length], so
    that the loop does not run and the hash is 0, as for an empty array and
    for an object without a [length] above 0; [null] has no properties, and
    where the loop runs on a value that is not a string, [charCodeAt] is not a
    function. *)
Definition hashString_of (str : jsvalue) : option string :=
  match str with
  | VString s => Some (hashString s)
  | VNull => None
  | VBool _ | VNumber _ => Some (hashString [])
  | VArray [] => Some (hashString [])
  | VArray (_ :: _) => None
  | VObject members =>
      match own_property (js "length") members with
      | None => Some (hashString [])
      | Some len =>
          match zero_lt len with
          | Some false => Some (hashString [])
          | _ => None
          end
      end
  end.

(** [logic.substring(0, 200)]; [None] is the [TypeError] raised on a value
    that is not a string, which has no function [substring]. *)
Definition substring_0_200 (logic : jsvalue) : option jsstring :=
  match logic with
  | VString s => Some (take 200 s)
  | _ => None
  end.

(** ** [settleToArweave] *)

(** The element [receipts.map] builds for one receipt; [None] when building
    it throws. *)
Definition summary (r : PendingReceipt) : option ReceiptSummary :=
  match hashString_of (context (full_payload r)),
        substring_0_200 (logic (full_payload r)) with
  | Some digest, Some prefix =>
      Some {| sm_receipt_id := receipt_id (base r);
              sm_hash := hash (base r);
              sm_signature := signature (base r);
              sm_timestamp_ms := timestamp_ms (base r);
              context_hash := digest;
              logic_summary := prefix;
              sm_action := action (full_payload r);
              sm_agent_id := or_null (agent_id (full_payload r)) |}
  | _, _ => None
  end.

End Engine.

(** The loop of the branch taken when no process is configured; each receipt
    reads the clock twice. *)
Fixpoint simulated (clock : Clock) (k : nat) (rs : list PendingReceipt)
  : list SettlementResult :=
  match rs with
  | [] => []
  | r :: rs' =>
      {| res_receipt_id := receipt_id (base r);
         res_arweave_tx :=
           Some ("sim_" +:+ pretty (clock k) +:+ "_" +:+ receipt_id (base r));
         ao_message_id := Some ("sim_msg_" +:+ pretty (clock (S k)));
         res_status := r_settled;
         error := None |} :: simulated clock (S (S k)) rs'
  end.

Definition all_failed (errorMessage : string) (rs : list PendingReceipt)
  : list SettlementResult :=
  (fun r => {| res_receipt_id := receipt_id (base r);
               res_arweave_tx := None;
               ao_message_id := None;
               res_status := r_failed;
               error := Some errorMessage |}) <$> rs.

Definition all_settled (messageId : string) (rs : list PendingReceipt)
  : list SettlementResult :=
  (fun r => {| res_receipt_id := receipt_id (base r);
               res_arweave_tx := Some messageId;
               ao_message_id := Some messageId;
               res_status := r_settled;
               error := None |}) <$> rs.

(** [settleToArweave] up to its first [await]: either the promise is already
    resolved with results, or a message has been handed to [message(...)], or
    building [batchPayload], which is done before the [try], has thrown and
    the promise is rejected. *)
Inductive Submission :=
| Resolved (results : list SettlementResult)
| Sent (m : AoMessage)
| Rejected.

(** What the two awaited calls [message] and [result] do: both return, the
    first with a message id, or one of them throws. *)
Inductive Outcome :=
| Acknowledged (messageId : string)
| Threw (errorMessage : string).

Section Client.

Context {engine : JsEngine}.

(** [process.env.VERITAS_PROCESS_ID]. *)
Variable VERITAS_PROCESS_ID : option string.

Definition DEFAULT_PROCESS_ID : option string := truthy_str VERITAS_PROCESS_ID.

Definition settleToArweave_start (processId : option string)
    (wallet : option Wallet) (clock : Clock) (rs : list PendingReceipt)
  : Submission :=
  let targetProcess :=
    match truthy_str processId with
    | Some p => Some p
    | None => DEFAULT_PROCESS_ID
    end in
  match targetProcess with
  | None => Resolved (simulated clock 0 rs)
  | Some target =>
      match wallet with
      | None => Resolved (all_failed "No wallet configured" rs)
      | Some w =>
          match mapM summary rs with
          | Some entries =>
              Sent {| process := target;
                      signer := w;
                      tags := [("Action", "StoreReceipts");
                               ("Veritas-Version", "0.1.0");
                               ("Receipt-Count", pretty (length rs))];
                      data := {| type := "VeritasReceiptBatch";
                                 count := length rs;
                                 receipts := entries;
                                 settled_at := clock 0%nat |} |}
          | None => Rejected
          end
      end
  end.

(** The rest of [settleToArweave], after the awaited calls. *)
Definition settleToArweave_finish (rs : list PendingReceipt) (o : Outcome)
  : list SettlementResult :=
  match o with
  | Acknowledged messageId => all_settled messageId rs
  | Threw errorMessage => all_failed errorMessage rs
  end.

End Client.

(** The sum that the loop of [hashString] computes when nothing wraps
    around: the code units read as the digits of a numeral in base 31. *)
Definition base31 (str : jsstring) : Z :=
  foldl (fun h c => (31 * h + Z.of_N c)%Z) 0%Z str.

(** ** [verifyOnArweave] *)

Record SimulatedData := {
  simulated_flag : bool;
  sd_receipt_id : string;
  sd_arweave_tx : string;
}.

Record ArweaveLookup := {
  found : bool;
  found_data : option SimulatedData;
}.

Definition verifyOnArweave (arweave_tx receipt_id : string) : ArweaveLookup :=
  if String.prefix "sim_" arweave_tx then
    {| found := true;
       found_data := Some {| simulated_flag := true;
                             sd_receipt_id := receipt_id;
                             sd_arweave_tx := arweave_tx |} |}
  else
    {| found := false; found_data := None |}.

(** ** [loadWallet] *)

(** What [existsSync] and [readFileSync] find at a path: nothing, something
    that cannot be read (the read throws), or a text. *)
Inductive File :=
| Missing
| Unreadable
| Content (text : string).

(** What [JSON.parse] does with a text: it throws, or yields a falsy value
    ([null], [false], [0], the empty string), or any other value. *)
Inductive Parsed :=
| SyntaxError
| Falsy
| Value (w : Wallet).

Section Wallets.

(** [process.env.WALLET_PATH], [process.cwd()], [homedir()], [path.join], the
    file system and [JSON.parse]. *)
Variable WALLET_PATH : option string.
Variable cwd : string.
Variable homedir : string.
Variable join : list string -> string.
Variable fs : string -> File.
Variable JSON_parse : string -> Parsed.

(** The candidate paths, after [.filter(Boolean)]. *)
Definition locations : list string :=
  omap truthy_str
    [WALLET_PATH;
     Some (join [cwd; "wallets"; "wallet.json"]);
     Some (join [homedir; ".aos.json"]);
     Some (join [homedir; "wallet.json"])].

(** The loop of [loadWallet]: the first path whose file exists, can be read
    and parses decides; its value is returned as it is, so that a falsy one
    counts as no wallet for the caller. *)
Fixpoint first_wallet (paths : list string) : option Wallet :=
  match paths with
  | [] => None
  | path :: rest =>
      match fs path with
      | Content text =>
          match JSON_parse text with
          | Value w => Some w
          | Falsy => None
          | SyntaxError => first_wallet rest
          end
      | Unreadable => first_wallet rest
      | Missing => first_wallet rest
      end
  end.

Definition loadWallet : option Wallet := first_wallet locations.

(** A path that [loadWallet] passes over: no file, a file that cannot be
    read, or a text that does not parse. *)
Definition passed_over (path : string) : Prop :=
  match fs path with
  | Content text => JSON_parse text = SyntaxError
  | _ => True
  end.

End Wallets.

End Settler.

(** * The wallet search of [scripts/spawn-process.mjs] *)

Module Spawn.

Import Settler.

(** How the start of the script ends: an uncaught exception, [process.exit(1)]
    after "No wallet found", or a wallet and the path it was read from. *)
Inductive Search :=
| Crashed
| Exit1
| Using (path : string) (wallet : Wallet).

Section Wallets.

Variable WALLET_PATH : option string.
Variable cwd : string.
Variable homedir : string.
Variable join : list string -> string.
Variable fs : string -> File.
Variable JSON_parse : string -> Parsed.

Definition walletPaths : list string :=
  omap truthy_str
    [WALLET_PATH;
     Some (join [cwd; "wallets"; "wallet.json"]);
     Some (join [homedir; ".aos.json"]);
     Some (join [homedir; "wallet.json"])].

(** The loop stops at the first path that exists; reading and parsing are
    not guarded. *)
Fixpoint search (paths : list string) : Search :=
  match paths with
  | [] => Exit1
  | path :: rest =>
      match fs path with
      | Missing => search rest
      | Unreadable => Crashed
      | Content text =>
          match JSON_parse text with
          | SyntaxError => Crashed
          | Falsy => Exit1
          | Value w => Using path w
          end
      end
  end.

Definition wallet : Search := search walletPaths.

End Wallets.

End Spawn.


(** * The HTTP server ([src/http-server.ts]) *)

Module Http.

Import Settler.

(** ** [JSON.stringify] on the hashed payload *)

(** The values of the hashed object: the members of the request, the
    timestamp, which is an integer, and [null]. *)
Inductive json :=
| JNull
| JNumber (z : Z)
| JValue (v : jsvalue).

Definition hex4 (c : N) : string :=
  String (hex_digit (c / 4096 mod 16))
    (String (hex_digit (c / 256 mod 16))
       (String (hex_digit (c / 16 mod 16))
          (String (hex_digit (c mod 16)) ""))).

Definition unicode_escape (c : N) : jsstring := js ("\u" +:+ hex4 c).

Definition is_high_surrogate (c : N) : bool := ((55296 <=? c) && (c <=? 56319))%N.
Definition is_low_surrogate (c : N) : bool := ((56320 <=? c) && (c <=? 57343))%N.

(** The escape of one code unit that is not a surrogate. *)
Definition quote_unit (c : N) : jsstring :=
  match c with
  | 8 => js "\b"
  | 9 => js "\t"
  | 10 => js "\n"
  | 12 => js "\f"
  | 13 => js "\r"
  | 34 => [92; 34]
  | 92 => [92; 92]
  | _ => if (c <? 32)%N then unicode_escape c else [c]
  end%N.

(** The body of a quoted string: a surrogate pair is kept, a lone surrogate
    is written as a [\u] escape. *)
Fixpoint quote_units (s : jsstring) : jsstring :=
  match s with
  | [] => []
  | c :: rest =>
      if is_high_surrogate c then
        match rest with
        | d :: rest' =>
            if is_low_surrogate d then c :: d :: quote_units rest'
            else (unicode_escape c ++ quote_units rest)%list
        | [] => unicode_escape c
        end
      else if is_low_surrogate c then (unicode_escape c ++ quote_units rest)%list
      else (quote_unit c ++ quote_units rest)%list
  end.

Definition quote (s : jsstring) : jsstring :=
  ([34%N] ++ quote_units s ++ [34%N])%list.

Fixpoint join_members (members : list jsstring) : jsstring :=
  match members with
  | [] => []
  | [m] => m
  | m :: rest => (m ++ js "," ++ join_members rest)%list
  end.

Section Stringify.

Context {engine : JsEngine}.

(** [JSON.stringify] of a parsed value: a number that is not finite is
    written [null]; the elements of an array and the members of an object
    are written in their order. *)
Fixpoint stringify (v : jsvalue) : jsstring :=
  match v with
  | VNull => js "null"
  | VBool true => js "true"
  | VBool false => js "false"
  | VNumber x => if PrimFloat.is_finite x then Number_toString x else js "null"
  | VString s => quote s
  | VArray items =>
      (js "[" ++ join_members (map stringify items) ++ js "]")%list
  | VObject members =>
      (js "{"
       ++ join_members
            (map (fun kv : jsstring * jsvalue =>
                    quote kv.1 ++ js ":" ++ stringify kv.2) members)
       ++ js "}")%list
  end.

Definition stringify_value (v : json) : jsstring :=
  match v with
  | JNull => js "null"
  | JNumber z => js (pretty z)
  | JValue v => stringify v
  end.

(** [JSON.stringify] of an object whose members are the [fields], in order. *)
Definition JSON_stringify (fields : list (string * json)) : jsstring :=
  let member (kv : string * json) :=
    (quote (js kv.1) ++ js ":" ++ stringify_value kv.2)%list in
  (js "{" ++ join_members (member <$> fields) ++ js "}")%list.

End Stringify.

(** ** Node's [crypto] module *)

(** The digest [createHash("sha256").update(payload).digest("hex")], and
    ECDSA over prime256v1 with the key pair generated when the server starts.
    Signing draws fresh randomness on every call, which [entropy] stands for. *)
Class NodeCrypto := {
  sha256_hex : jsstring -> string;
  ecdsa_sign : N -> string -> string;
  ecdsa_verify : string -> string -> bool;
}.

Definition is_hex (a : ascii) : bool :=
  let n := N_of_ascii a in
  (((48 <=? n) && (n <=? 57)) || ((97 <=? n) && (n <=? 102)))%N.

(** What the proofs use of the library: a hex digest has 64 lower-case hex
    digits, and a signature made with the private key verifies with the
    public key. *)
Class NodeCryptoLaws (C : NodeCrypto) : Prop := {
  sha256_hex_length : forall payload, String.length (sha256_hex payload) = 64%nat;
  sha256_hex_digits :
    forall payload, forallb is_hex (list_ascii_of_string (sha256_hex payload)) = true;
  sign_then_verify :
    forall entropy h, ecdsa_verify h (ecdsa_sign entropy h) = true;
}.

(** ** JavaScript's [Map], in insertion order *)

Definition JsMap (V : Type) : Type := list (string * V).

Fixpoint map_get {V} (k : string) (m : JsMap V) : option V :=
  match m with
  | [] => None
  | (k', v) :: m' => if bool_decide (k' = k) then Some v else map_get k m'
  end.

(** [set] keeps the position of a key that is present and appends a new one. *)
Fixpoint map_set {V} (k : string) (v : V) (m : JsMap V) : JsMap V :=
  match m with
  | [] => [(k, v)]
  | (k', v') :: m' =>
      if bool_decide (k' = k) then (k, v) :: m' else (k', v') :: map_set k v m'
  end.

Fixpoint map_delete {V} (k : string) (m : JsMap V) : JsMap V :=
  match m with
  | [] => []
  | (k', v') :: m' =>
      if bool_decide (k' = k) then map_delete k m' else (k', v') :: map_delete k m'
  end.

Definition map_values {V} (m : JsMap V) : list V := snd <$> m.
Definition map_size {V} (m : JsMap V) : nat := length m.
(** ** Server state *)

(** Calls into [crypto], recorded in the order they are made. *)
Inductive CryptoCall :=
| Hashed (payload : jsstring)
| Signed (h : string)
| Verified (h sig : string).

(** The two module-level maps; the executions of [settleReceipts] that are
    suspended at [await settleToArweave(batch)], each with its batch; and the
    record of the crypto calls made so far, which no code reads. *)
Record Server := {
  pendingReceipts : JsMap PendingReceipt;
  settledReceipts : JsMap WitnessReceipt;
  in_flight : list (list PendingReceipt);
  crypto_calls : list CryptoCall;
}.

Definition initial : Server :=
  {| pendingReceipts := []; settledReceipts := []; in_flight := []; crypto_calls := [] |}.

(** Code that reads and writes the server state. *)
Definition M (A : Type) : Type := Server -> A * Server.

Definition ret {A} (a : A) : M A := fun st => (a, st).
Definition bind {A B} (m : M A) (k : A -> M B) : M B :=
  fun st => let '(a, st') := m st in k a st'.

Notation "'do' x <- m ; k" := (bind m (fun x => k))
  (at level 10, x name, m at level 100, k at level 200,
   format "'[v' 'do'  x  <-  m ; '/' k ']'").

Definition pending_get (k : string) : M (option PendingReceipt) :=
  fun st => (map_get k (pendingReceipts st), st).
Definition settled_get (k : string) : M (option WitnessReceipt) :=
  fun st => (map_get k (settledReceipts st), st).
Definition pending_size : M nat := fun st => (map_size (pendingReceipts st), st).
Definition pending_values : M (list PendingReceipt) :=
  fun st => (map_values (pendingReceipts st), st).

Definition pending_set (k : string) (v : PendingReceipt) : M unit :=
  fun st => (tt, {| pendingReceipts := map_set k v (pendingReceipts st);
                    settledReceipts := settledReceipts st;
                    in_flight := in_flight st;
                    crypto_calls := crypto_calls st |}).
Definition pending_delete (k : string) : M unit :=
  fun st => (tt, {| pendingReceipts := map_delete k (pendingReceipts st);
                    settledReceipts := settledReceipts st;
                    in_flight := in_flight st;
                    crypto_calls := crypto_calls st |}).
Definition settled_set (k : string) (v : WitnessReceipt) : M unit :=
  fun st => (tt, {| pendingReceipts := pendingReceipts st;
                    settledReceipts := map_set k v (settledReceipts st);
                    in_flight := in_flight st;
                    crypto_calls := crypto_calls st |}).

(** Suspending at the [await], and resuming the [k]-th suspended execution. *)
Definition suspend (batch : list PendingReceipt) : M unit :=
  fun st => (tt, {| pendingReceipts := pendingReceipts st;
                    settledReceipts := settledReceipts st;
                    in_flight := (in_flight st ++ [batch])%list;
                    crypto_calls := crypto_calls st |}).
Definition resume (k : nat) : M (option (list PendingReceipt)) :=
  fun st => (in_flight st !! k,
             {| pendingReceipts := pendingReceipts st;
                settledReceipts := settledReceipts st;
                in_flight := delete k (in_flight st);
                crypto_calls := crypto_calls st |}).

Definition record_call (c : CryptoCall) : M unit :=
  fun st => (tt, {| pendingReceipts := pendingReceipts st;
                    settledReceipts := settledReceipts st;
                    in_flight := in_flight st;
                    crypto_calls := (crypto_calls st ++ [c])%list |}).

(** ** The request handlers *)

(** The key of the two maps that a value is: a string whose code units are
    below 256, which is how the ids, all ASCII, are kept here.  [Map.get]
    with any other value finds nothing. *)
Definition map_key (v : jsvalue) : option string :=
  match v with
  | VString s =>
      string_of_list_ascii
        <$> mapM (fun c : N => if (c <? 256)%N then Some (ascii_of_N c) else None) s
  | _ => None
  end.

Section Handlers.

Context {crypto : NodeCrypto} {engine : JsEngine}.

(** [process.env.VERITAS_PROCESS_ID], read when the settler module loads. *)
Variable VERITAS_PROCESS_ID : option string.

Definition generateReceiptId (hash : string) : string :=
  "vts_" +:+ substring 0 16 hash.

(** The string that [hashWitnessRequest] hashes. *)
Definition hashed_payload (request : WitnessRequest) (timestamp_ms : Z) : jsstring :=
  JSON_stringify
    [("context", JValue (context request));
     ("logic", JValue (logic request));
     ("action", JValue (action request));
     ("agent_id", from_option JValue JNull (or_null (agent_id request)));
     ("timestamp_ms", JNumber timestamp_ms)].

Definition hashWitnessRequest (request : WitnessRequest) (timestamp_ms : Z) : M string :=
  let payload := hashed_payload request timestamp_ms in
  do _ <- record_call (Hashed payload);
  ret (sha256_hex payload).

Definition signHash (entropy : N) (hash : string) : M string :=
  do _ <- record_call (Signed hash);
  ret (ecdsa_sign entropy hash).

Definition verifySignature (hash signature : string) : M bool :=
  do _ <- record_call (Verified hash signature);
  ret (ecdsa_verify hash signature).

(** [witnessDecision]; [now] is the value [Date.now()] returns in it. *)
Definition witnessDecision (now : Z) (entropy : N) (request : WitnessRequest)
  : M WitnessReceipt :=
  let timestamp_ms := now in
  do hash <- hashWitnessRequest request timestamp_ms;
  let receipt_id := generateReceiptId hash in
  do signature <- signHash entropy hash;
  let receipt :=
    {| receipt_id := receipt_id;
       signature := signature;
       timestamp_ms := timestamp_ms;
       hash := hash;
       arweave_tx := None;
       status := Pending |} in
  let pendingReceipt := {| base := receipt; full_payload := request |} in
  do _ <- pending_set receipt_id pendingReceipt;
  ret receipt.

Record VerifyResult := {
  valid : bool;
  receipt : option WitnessReceipt;
  message : string;
}.

Definition verifyReceipt (receipt_id : string) : M VerifyResult :=
  do settled <- settled_get receipt_id;
  match settled with
  | Some settled =>
      do valid <- verifySignature (hash settled) (signature settled);
      ret {| valid := valid;
             receipt := Some settled;
             message := if valid then "Receipt verified and settled"
                        else "Invalid signature" |}
  | None =>
      do pending <- pending_get receipt_id;
      match pending with
      | Some pending =>
          do valid <- verifySignature (hash (base pending)) (signature (base pending));
          ret {| valid := valid;
                 receipt := Some (base pending);
                 message := if valid then "Receipt verified, settlement pending"
                            else "Invalid signature" |}
      | None =>
          ret {| valid := false; receipt := None; message := "Receipt not found" |}
      end
  end.

(** ** Settlement *)

(** The body of [for (const result of results)] in [settleReceipts]. *)
Definition apply_result (result : SettlementResult) : M unit :=
  do pending <- pending_get (res_receipt_id result);
  match pending with
  | None => ret tt
  | Some pending =>
      match res_status result with
      | r_settled =>
          let settled :=
            {| receipt_id := receipt_id (base pending);
               signature := signature (base pending);
               timestamp_ms := timestamp_ms (base pending);
               hash := hash (base pending);
               arweave_tx := res_arweave_tx result;
               status := Settled |} in
          do _ <- settled_set (res_receipt_id result) settled;
          pending_delete (res_receipt_id result)
      | r_failed => ret tt
      end
  end.

Fixpoint apply_results (results : list SettlementResult) : M unit :=
  match results with
  | [] => ret tt
  | result :: rest => do _ <- apply_result result; apply_results rest
  end.

(** [settleReceipts] from its start to the [await]: when the promise of
    [settleToArweave] is already resolved the results are applied before any
    other callback runs; when a message has been sent the execution is
    suspended; when the promise is rejected the [await] throws, and the
    execution ends there (the timer callback logs the error). *)
Definition settleReceipts (wallet : option Wallet) (clock : Clock) : M unit :=
  do size <- pending_size;
  if Nat.eqb size 0 then ret tt
  else
    do batch <- pending_values;
    match settleToArweave_start VERITAS_PROCESS_ID None wallet clock batch with
    | Resolved results => apply_results results
    | Sent _ => suspend batch
    | Rejected => ret tt
    end.

(** [settleReceipts] after the [await], for the [k]-th suspended execution. *)
Definition settleReceipts_resume (k : nat) (o : Outcome) : M unit :=
  do batch <- resume k;
  match batch with
  | Some batch => apply_results (settleToArweave_finish batch o)
  | None => ret tt
  end.

(** The callback of [setInterval(..., 10000)]. *)
Definition on_interval (wallet : option Wallet) (clock : Clock) : M unit :=
  do size <- pending_size;
  if Nat.ltb 0 size then settleReceipts wallet clock else ret tt.

(** ** Routes of [handleRequest] *)

Inductive Response :=
| ErrorResponse (code : nat) (error : string)
| WitnessResponse (code : nat) (success : bool) (receipt : WitnessReceipt)
| VerifyResponse (code : nat) (result : VerifyResult)
| NoResponse.

(** [body as WitnessRequest] together with the test
    [!request.context || !request.logic || !request.action], for a body that
    is not [null]: the request when the three members are truthy. *)
Definition as_request (body : jsvalue) : option WitnessRequest :=
  match member "context" body, member "logic" body, member "action" body with
  | Some c, Some l, Some a =>
      if ToBoolean c && ToBoolean l && ToBoolean a then
        Some {| context := c; logic := l; action := a;
                agent_id := member "agent_id" body |}
      else None
  | _, _, _ => None
  end.

(** The route [POST /witness] on a parsed body, which is any JSON value.
    On [null] the test [!request.context] throws, and the [catch] of the
    server answers with status 500. *)
Definition post_witness (body : jsvalue) (now : Z) (entropy : N) : M Response :=
  match body with
  | VNull => ret (ErrorResponse 500 "Internal server error")
  | _ =>
      match as_request body with
      | None => ret (ErrorResponse 400 "Missing required fields: context, logic, action")
      | Some request =>
          do receipt <- witnessDecision now entropy request;
          ret (WitnessResponse 200 true receipt)
      end
  end.

Definition get_verify (receipt_id : string) : M Response :=
  do result <- verifyReceipt receipt_id;
  ret (VerifyResponse (if valid result then 200 else 404) result).

(** ** The event loop *)

(** What the event loop can run next: a request, the timer, or the
    continuation of a suspended settlement. *)
Inductive Event :=
| PostWitness (body : jsvalue) (now : Z) (entropy : N)
| GetVerify (receipt_id : string)
| Interval (wallet : option Wallet) (clock : Clock)
| LedgerReturns (k : nat) (o : Outcome).

Definition handle (e : Event) : M Response :=
  match e with
  | PostWitness body now entropy => post_witness body now entropy
  | GetVerify receipt_id => get_verify receipt_id
  | Interval wallet clock => do _ <- on_interval wallet clock; ret NoResponse
  | LedgerReturns k o => do _ <- settleReceipts_resume k o; ret NoResponse
  end.

Definition step (st : Server) (e : Event) : Server := (handle e st).2.

Definition run (es : list Event) (st : Server) : Server := foldl step st es.

(** The id [witnessDecision] gives the receipt of a request. *)
Definition receipt_id_of (request : WitnessRequest) (now : Z) : string :=
  generateReceiptId (sha256_hex (hashed_payload request now)).

(** The ids of the receipts a sequence of events creates. *)
Definition created_by (e : Event) : list string :=
  match e with
  | PostWitness body now _ =>
      match as_request body with
      | Some request => [receipt_id_of request now]
      | None => []
      end
  | _ => []
  end.

Definition created (es : list Event) : list string := es ≫= created_by.

End Handlers.

(** ** [handleRequest] *)

(** A request: its method, the path of its URL, and what [JSON.parse] makes
    of its body ([None] when it throws). *)
Record Request := {
  method : string;
  pathname : string;
  parsed : option jsvalue;
}.

(** What is sent back: [res.writeHead(204)] with no body, or [sendJson] with
    a status and one of the objects the routes build. *)
Inductive Answer :=
| NoContent (code : nat)
| JsonError (code : nat) (error : string)
| Health (code : nat) (status service version : string)
| Witnessed (code : nat) (success : bool) (receipt : WitnessReceipt)
| Verification (code : nat) (result : VerifyResult)
| Info (code : nat) (name version description public_key : string)
    (pending_receipts settled_receipts : nat)
| Stats (code : nat) (pending settled total : nat).

Section Router.

Context {crypto : NodeCrypto} {engine : JsEngine}.

(** The exported public key, a PEM text. *)
Variable SERVER_PUBLIC_KEY : string.

Definition settled_size : M nat := fun st => (map_size (settledReceipts st), st).

(** [handleRequest], with the [catch] of the callback that calls it; [now]
    and [entropy] are what [witnessDecision] reads from the clock and the
    random source when the request reaches it.  The body is parsed for a
    [POST] only, and is the empty object otherwise.  A [null] body makes
    [request.context] throw, which the [catch] answers with status 500. *)
Definition handleRequest (req : Request) (now : Z) (entropy : N) : M Answer :=
  if String.eqb (method req) "OPTIONS" then ret (NoContent 204)
  else
    match (if String.eqb (method req) "POST" then parsed req
           else Some (VObject [])) with
    | None => ret (JsonError 400 "Invalid JSON")
    | Some body =>
        if String.eqb (pathname req) "/" || String.eqb (pathname req) "/health" then
          ret (Health 200 "ok" "veritas" "0.1.0")
        else if String.eqb (pathname req) "/witness" && String.eqb (method req) "POST" then
          match body with
          | VNull => ret (JsonError 500 "Internal server error")
          | _ =>
              match as_request body with
              | None =>
                  ret (JsonError 400 "Missing required fields: context, logic, action")
              | Some request =>
                  do receipt <- witnessDecision now entropy request;
                  ret (Witnessed 200 true receipt)
              end
          end
        else if String.prefix "/verify/" (pathname req)
                && String.eqb (method req) "GET" then
          let receipt_id :=
            substring 8 (String.length (pathname req) - 8) (pathname req) in
          do result <- verifyReceipt receipt_id;
          ret (Verification (if valid result then 200 else 404) result)
        else if String.eqb (pathname req) "/info" && String.eqb (method req) "GET" then
          do pending <- pending_size;
          do settled <- settled_size;
          ret (Info 200 "Veritas" "0.1.0"
                 "Transaction Witness for autonomous agent decisions"
                 SERVER_PUBLIC_KEY pending settled)
        else if String.eqb (pathname req) "/stats" && String.eqb (method req) "GET" then
          do pending <- pending_size;
          do settled <- settled_size;
          ret (Stats 200 pending settled (pending + settled))
        else ret (JsonError 404 "Not found")
    end.

End Router.

(** ** Reading a quoted string back *)

Definition unhex_digit (c : N) : N :=
  if ((48 <=? c) && (c <=? 57))%N then (c - 48)%N else (c - 87)%N.

Definition unescape (e : N) : N :=
  match e with
  | 98 => 8
  | 116 => 9
  | 110 => 10
  | 102 => 12
  | 114 => 13
  | _ => e
  end%N.

Definition prepend (c : N) (r : option (jsstring * jsstring))
  : option (jsstring * jsstring) :=
  match r with
  | Some (s, rest) => Some (c :: s, rest)
  | None => None
  end.

(** The code units up to the closing quote, with the escapes of [quote_units]
    undone, and what follows the quote. *)
Fixpoint unquote_units (s : jsstring) : option (jsstring * jsstring) :=
  match s with
  | [] => None
  | c :: rest =>
      if (c =? 34)%N then Some ([], rest)
      else if (c =? 92)%N then
        match rest with
        | [] => None
        | e :: rest1 =>
            if (e =? 117)%N then
              match rest1 with
              | h3 :: h2 :: h1 :: h0 :: rest2 =>
                  prepend (unhex_digit h3 * 4096 + unhex_digit h2 * 256
                           + unhex_digit h1 * 16 + unhex_digit h0)%N
                    (unquote_units rest2)
              | _ => None
              end
            else prepend (unescape e) (unquote_units rest1)
        end
      else prepend c (unquote_units rest)
  end.

(** ** What the properties of the server are stated with *)

(** A property of every entry of a map. *)
Definition entries {V} (P : string -> V -> Prop) (m : JsMap V) : Prop :=
  forall k v, (k, v) ∈ m -> P k v.

Section Properties.

Context {crypto : NodeCrypto} {engine : JsEngine}.
Variable VERITAS_PROCESS_ID : option string.

(** The record [settleReceipts] stores for a pending receipt it settles. *)
Definition promoted (p : PendingReceipt) (tx : option string) : WitnessReceipt :=
  {| receipt_id := receipt_id (base p);
     signature := signature (base p);
     timestamp_ms := timestamp_ms (base p);
     hash := hash (base p);
     arweave_tx := tx;
     status := Settled |}.

(** The state with the two maps replaced. *)
Definition with_stores (st : Server) (pending : JsMap PendingReceipt)
    (settled : JsMap WitnessReceipt) : Server :=
  {| pendingReceipts := pending; settledReceipts := settled;
     in_flight := in_flight st; crypto_calls := crypto_calls st |}.

(** The state [apply_result] leaves, written without the monad (see
    [HttpFacts.apply_result_eq]). *)
Definition apply_result_state (result : SettlementResult) (st : Server) : Server :=
  match map_get (res_receipt_id result) (pendingReceipts st), res_status result with
  | Some p, r_settled =>
      with_stores st
        (map_delete (res_receipt_id result) (pendingReceipts st))
        (map_set (res_receipt_id result) (promoted p (res_arweave_tx result))
           (settledReceipts st))
  | _, _ => st
  end.

(** The receipt [witnessDecision] returns. *)
Definition witnessed (request : WitnessRequest) (now : Z) (entropy : N) : WitnessReceipt :=
  let h := sha256_hex (hashed_payload request now) in
  {| receipt_id := generateReceiptId h;
     signature := ecdsa_sign entropy h;
     timestamp_ms := now;
     hash := h;
     arweave_tx := None;
     status := Pending |}.

(** *** Invariants of the two stores *)

Definition has_pending (st : Server) (k : string) : Prop :=
  is_Some (map_get k (pendingReceipts st)).
Definition has_settled (st : Server) (k : string) : Prop :=
  is_Some (map_get k (settledReceipts st)).
Definition known (st : Server) (k : string) : Prop :=
  has_pending st k \/ has_settled st k.

Definition pending_shape (k : string) (p : PendingReceipt) : Prop :=
  receipt_id (base p) = k /\ status (base p) = Pending /\ arweave_tx (base p) = None.
Definition settled_shape (k : string) (s : WitnessReceipt) : Prop :=
  receipt_id s = k /\ status s = Settled /\ is_Some (arweave_tx s).
Definition signed (w : WitnessReceipt) : Prop :=
  ecdsa_verify (hash w) (signature w) = true.

(** Every entry is stored under its own id, pending entries are [Pending]
    without a transaction, settled entries are [Settled] with one, and the
    receipts of a suspended execution are in one of the stores. *)
Record well_formed (st : Server) : Prop := {
  wf_pending : entries pending_shape (pendingReceipts st);
  wf_settled : entries settled_shape (settledReceipts st);
  wf_in_flight : forall batch r,
    batch ∈ in_flight st -> r ∈ batch -> known st (receipt_id (base r));
}.

(** Every stored signature verifies. *)
Record well_signed (st : Server) : Prop := {
  ws_pending : entries (fun _ p => signed (base p)) (pendingReceipts st);
  ws_settled : entries (fun _ s => signed s) (settledReceipts st);
}.

(** A result with status [r_settled] carries a transaction id. *)
Definition carries_tx (res : SettlementResult) : Prop :=
  res_status res = r_settled -> is_Some (res_arweave_tx res).

(** *** No receipt in both stores *)

Definition disjoint (st : Server) : Prop :=
  forall k, ~ (has_pending st k /\ has_settled st k).

(** No witnessing call of the run produces an id that is in the settled
    store when the call is made. *)
Fixpoint never_rewitnesses_settled (es : list Event) (st : Server) : Prop :=
  match es with
  | [] => True
  | e :: es' =>
      (forall id, id ∈ created_by e -> ~ has_settled st id) /\
      never_rewitnesses_settled es' (step VERITAS_PROCESS_ID st e)
  end.


(** *** Ids and hashes of stored receipts *)

(** A pending entry whose key is made from its hash, and whose hash is the
    digest of the payload kept with it. *)
Definition pending_derived (k : string) (p : PendingReceipt) : Prop :=
  k = generateReceiptId (hash (base p)) /\
  hash (base p) = sha256_hex (hashed_payload (full_payload p) (timestamp_ms (base p))).

Definition settled_derived (k : string) (x : WitnessReceipt) : Prop :=
  k = generateReceiptId (hash x).

End Properties.

End Http.

(** * The MCP server ([src/index.ts]) *)

(** The second server keeps the same two maps and has its own copies of
    [witnessDecision] and [verifyReceipt]; the first copy differs from the
    one of the HTTP server only by a log line.  Its settlement loop, which
    awaits inside an iteration over the pending map, is not modelled. *)
Module Mcp.

Import Http.

(** A tool call: the tool's name with its [arguments], which the schema of
    the request makes an object, or leaves absent. *)
Inductive ToolCall :=
| witness_decision (args : option (list (jsstring * jsvalue)))
| verify_receipt (args : option (list (jsstring * jsvalue)))
| get_server_info
| unknown_tool (name : string).

Inductive ToolResult :=
| ToolError (text : string)
| WitnessText (success : bool) (receipt : WitnessReceipt)
    (message verification_note : string)
| VerifyText (result : VerifyResult)
| InfoText (name version description public_key : string)
    (pending_receipts settled_receipts settlement_interval_seconds : nat).

Section Tools.

Context {crypto : NodeCrypto} {engine : JsEngine}.

Variable SERVER_PUBLIC_KEY : string.

(** The messages of the two [TypeError]s a call without [arguments] raises:
    reading [context] of [undefined], and destructuring [undefined]. *)
Variable cannot_read_context : string.
Variable cannot_destructure : string.

Definition verifyReceipt (rid : string) : M VerifyResult :=
  do settled <- settled_get rid;
  match settled with
  | Some settled =>
      do valid <- verifySignature (hash settled) (signature settled);
      ret {| valid := valid;
             receipt := Some settled;
             message := if valid then "Receipt verified and settled on Arweave"
                        else "Invalid signature" |}
  | None =>
      do pending <- pending_get rid;
      match pending with
      | Some pending =>
          do valid <- verifySignature (hash (base pending)) (signature (base pending));
          ret {| valid := valid;
                 receipt := Some {| receipt_id := receipt_id (base pending);
                                    signature := signature (base pending);
                                    timestamp_ms := timestamp_ms (base pending);
                                    hash := hash (base pending);
                                    arweave_tx := None;
                                    status := Pending |};
                 message := if valid then "Receipt verified, settlement pending"
                            else "Invalid signature" |}
      | None =>
          ret {| valid := false; receipt := None; message := "Receipt not found" |}
      end
  end.

(** [verifyReceipt] on the value of the argument [receipt_id], which need
    not be a string: a value that is no key of the maps is found in neither
    of them. *)
Definition verifyReceipt_of (receipt_id : jsvalue) : M VerifyResult :=
  match map_key receipt_id with
  | Some rid => verifyReceipt rid
  | None => ret {| valid := false; receipt := None; message := "Receipt not found" |}
  end.

(** The handler of [CallToolRequestSchema]. *)
Definition call_tool (call : ToolCall) (now : Z) (entropy : N) : M ToolResult :=
  match call with
  | witness_decision None => ret (ToolError ("Error: " +:+ cannot_read_context))
  | witness_decision (Some args) =>
      match as_request (VObject args) with
      | None => ret (ToolError "Error: context, logic, and action are required")
      | Some witnessRequest =>
          do receipt <- witnessDecision now entropy witnessRequest;
          ret (WitnessText true receipt
                 "Decision witnessed. Receipt signature valid. Settlement pending."
                 "Use verify_receipt to check Arweave settlement status.")
      end
  | verify_receipt None => ret (ToolError ("Error: " +:+ cannot_destructure))
  | verify_receipt (Some args) =>
      match or_null (own_property (js "receipt_id") args) with
      | None => ret (ToolError "Error: receipt_id is required")
      | Some receipt_id =>
          do result <- verifyReceipt_of receipt_id;
          ret (VerifyText result)
      end
  | get_server_info =>
      do pending <- pending_size;
      do settled <- settled_size;
      ret (InfoText "Veritas MCP Server" "0.1.0"
             "Transaction Witness for autonomous agent decisions"
             SERVER_PUBLIC_KEY pending settled 10)
  | unknown_tool name => ret (ToolError ("Unknown tool: " +:+ name))
  end.

End Tools.

End Mcp.

(** * A run of the ledger process *)

Module LedgerDemo.

Import Ledger.

(** A batch that names the same receipt twice; [sample_msg] sends it, under
    the message id given. *)
Definition sample_receipt (rid : string) : ReceiptIn :=
  {| receipt_id := Some rid; hash := LString "h"; signature := LString "s";
     timestamp_ms := LNumber (LInteger 1); context_hash := LString "30";
     logic_summary := LString "l"; action := LString "a"; agent_id := LNil |}.

Definition sample_batch : list ReceiptIn :=
  [sample_receipt "vts_1"; sample_receipt "vts_2"; sample_receipt "vts_1"].

Definition sample_decode (d : string) : option Decoding :=
  if bool_decide (d = "batch") then
    Some (Indexable {| d_receipts := Some (Items (Table <$> sample_batch));
                       d_receipt_id := None |})
  else None.

Definition sample_msg (id : string) : Msg :=
  {| From := Some "owner"; Id := id; Timestamp := 5;
     TagAction := Some "StoreReceipts"; TagReceiptId := None; TagLimit := None;
     Data := Some "batch" |}.

(** A query about a receipt, from someone who is not the owner. *)
Definition sample_query (rid : string) : Msg :=
  {| From := Some "auditor"; Id := "q"; Timestamp := 9;
     TagAction := Some "GetReceipt"; TagReceiptId := Some rid; TagLimit := None;
     Data := None |}.

(** A request for the list of receipts, with the [Limit] tag given. *)
Definition sample_list (limit : string) : Msg :=
  {| From := Some "auditor"; Id := "l"; Timestamp := 9;
     TagAction := Some "ListReceipts"; TagReceiptId := None; TagLimit := Some limit;
     Data := None |}.

(** [tonumber] on the two numerals the examples use. *)
Definition sample_tonumber (s : string) : option lua_number :=
  if bool_decide (s = "1") then Some (LInteger 1)
  else if bool_decide (s = "1.5") then Some (LFloat 1.5%float)
  else None.

(** A decoder for two more payloads: a batch whose second element is a
    number, and a payload that is a number. *)
Definition odd_decode (d : string) : option Decoding :=
  if bool_decide (d = "mixed") then
    Some (Indexable {| d_receipts := Some (Items [Table (sample_receipt "vts_1"); Scalar;
                                                  Table (sample_receipt "vts_2")]);
                       d_receipt_id := None |})
  else if bool_decide (d = "7") then Some NotIndexable
  else None.

Definition odd_msg (data : string) : Msg :=
  {| From := Some "owner"; Id := "o"; Timestamp := 5;
     TagAction := Some "StoreReceipts"; TagReceiptId := None; TagLimit := None;
     Data := Some data |}.

(** The batch of [sample_msg], sent by someone who is not the owner. *)
Definition intruder_msg : Msg :=
  {| From := Some "mallory"; Id := "x"; Timestamp := 6;
     TagAction := Some "StoreReceipts"; TagReceiptId := None; TagLimit := None;
     Data := Some "batch" |}.

End LedgerDemo.

(** * A small model of the crypto library, to run the server on examples *)

Module Demo.

Import Settler Http.

(** Eight hex digits of a 32-bit number. *)
Definition hex8 (n : N) : string :=
  hex4 (n / 65536 mod 65536) +:+ hex4 (n mod 65536).

(** A 64-digit digest made of a 32-bit checksum of the payload. *)
Definition checksum (payload : jsstring) : string :=
  let h := hex8 (Z.to_N (foldl hash_step 0%Z payload mod 2 ^ 32)) in
  h +:+ h +:+ h +:+ h +:+ h +:+ h +:+ h +:+ h.

(** A signature that names the digest it signs and the randomness used. *)
Definition demo_sign (entropy : N) (h : string) : string :=
  h +:+ ":" +:+ pretty entropy.

Definition demo_verify (h sig : string) : bool := String.prefix (h +:+ ":") sig.

#[export] Instance demo_crypto : NodeCrypto :=
  {| sha256_hex := checksum; ecdsa_sign := demo_sign; ecdsa_verify := demo_verify |}.

(** An engine that is asked about the number 5 only, and converts nothing. *)
#[export] Instance demo_engine : JsEngine :=
  {| Number_toString := fun _ => js "5"; ToNumber := fun _ => None |}.

Definition body1 : jsvalue :=
  VObject [(js "context", VString (js "c")); (js "logic", VString (js "l"));
           (js "action", VString (js "a"))].

Definition body2 : jsvalue :=
  VObject [(js "context", VString (js "price 99"));
           (js "logic", VString (js "within budget"));
           (js "action", VString (js "buy"));
           (js "agent_id", VString (js "agent-1"))].


(** A body whose [logic] is the number 5. *)
Definition body5 : jsvalue :=
  VObject [(js "context", VString (js "c")); (js "logic", VNumber 5%float);
           (js "action", VString (js "a"))].

Definition wallet0 : Wallet := Jwk "{}".

(** A text between double quotes. *)
Definition dq (s : string) : string :=
  String (ascii_of_N 34) (s +:+ String (ascii_of_N 34) "").

(** A clock that does not advance during a call. *)
Definition clock_at (t : Z) : Clock := fun _ => t.

(** A machine whose only key file is [.aos.json] in the home directory. *)
Definition demo_join (parts : list string) : string := String.concat "/" parts.
Definition demo_fs (path : string) : File :=
  if String.eqb path "home/.aos.json" then Content "{}" else Missing.
Definition demo_parse (text : string) : Parsed := Value (Jwk text).

Definition t0 : Z := 1700000000000.

(** The receipt of [body1] witnessed at [t0], and the one of [body2]
    witnessed six seconds later. *)
Definition request1 : WitnessRequest :=
  {| context := VString (js "c"); logic := VString (js "l");
     action := VString (js "a"); agent_id := None |}.

Definition request2 : WitnessRequest :=
  {| context := VString (js "price 99"); logic := VString (js "within budget");
     action := VString (js "buy"); agent_id := Some (VString (js "agent-1")) |}.

Definition request5 : WitnessRequest :=
  {| context := VString (js "c"); logic := VNumber 5%float;
     action := VString (js "a"); agent_id := None |}.

Definition receipt1 : PendingReceipt :=
  {| base := (witnessDecision t0 7 request1 initial).1; full_payload := request1 |}.

Definition receipt2 : PendingReceipt :=
  {| base := (witnessDecision (t0 + 6000) 8 request2 initial).1;
     full_payload := request2 |}.

Definition id1 : string := receipt_id (base receipt1).
Definition id2 : string := receipt_id (base receipt2).

(** A server with a process id configured, whose wallet file is missing when
    the timer fires. *)
Definition missing_wallet_run : list Event :=
  [PostWitness body1 t0 7; Interval None (clock_at (t0 + 5))].

(** A server with no process id configured: a witnessing call, a timer tick
    and the same request again, all within one millisecond. *)
Definition rewitness_run : list Event :=
  [PostWitness body1 t0 7; Interval None (clock_at t0); PostWitness body1 t0 8].

(** A server with a process id and a wallet, and a ledger that takes more
    than ten seconds to answer: the timer fires twice before the first
    answer. *)
Definition overlap_run : list Event :=
  [PostWitness body1 t0 7;
   Interval (Some wallet0) (clock_at (t0 + 5));
   PostWitness body2 (t0 + 6000) 8;
   Interval (Some wallet0) (clock_at (t0 + 10005))].

End Demo.

(** * Properties of the ledger process *)

Module LedgerFacts.

Import Ledger LedgerDemo.

Section Process.

Variable ao_id : string.
Variable process_owner : option string.
Variable json_decode : string -> option Decoding.
Variable tonumber : string -> option lua_number.

Local Abbreviation store_loop msg := (foldl (store_one msg)).
Local Abbreviation handle := (Ledger.handle ao_id json_decode tonumber).
Local Abbreviation run := (Ledger.run ao_id json_decode tonumber).

(** *** One iteration of the storing loop *)

Lemma store_one_count msg acc r :
  count_ok acc.1 -> count_ok (store_one msg acc r).1.
Proof.
  destruct acc as [st n]; unfold store_one, count_ok; simpl.
  destruct (receipt_id r) as [rid|]; simpl; [|done].
  destruct (Receipts st !! rid) eqn:E; simpl; [done|].
  intros ->. rewrite map_size_insert_None by done. lia.
Qed.

Lemma store_one_keeps msg acc r rid x :
  Receipts acc.1 !! rid = Some x ->
  Receipts (store_one msg acc r).1 !! rid = Some x.
Proof.
  destruct acc as [st n]; unfold store_one; simpl.
  destruct (receipt_id r) as [rid'|]; simpl; [|done].
  destruct (Receipts st !! rid') eqn:E; simpl; [done|].
  intros Hx. rewrite lookup_insert_ne; [done|congruence].
Qed.

Lemma store_one_flags msg acc r :
  Owner (store_one msg acc r).1 = Owner acc.1 /\
  Frozen (store_one msg acc r).1 = Frozen acc.1 /\
  Version (store_one msg acc r).1 = Version acc.1.
Proof.
  destruct acc as [st n]; unfold store_one; simpl.
  destruct (receipt_id r) as [rid|]; simpl; [|done].
  by destruct (Receipts st !! rid).
Qed.

Lemma store_one_present msg acc r rid :
  receipt_id r = Some rid ->
  is_Some (Receipts (store_one msg acc r).1 !! rid).
Proof.
  destruct acc as [st n]; unfold store_one; simpl. intros ->.
  destruct (Receipts st !! rid) eqn:E; simpl.
  - by rewrite E.
  - rewrite lookup_insert_eq. by eexists.
Qed.

Lemma store_one_skips msg st n r :
  (forall rid, receipt_id r = Some rid -> is_Some (Receipts st !! rid)) ->
  store_one msg (st, n) r = (st, n).
Proof.
  unfold store_one. intros H.
  destruct (receipt_id r) as [rid|]; [|done].
  destruct (H rid eq_refl) as [x ->]. done.
Qed.

(** *** The whole loop *)

Lemma store_loop_count msg rs : forall acc,
  count_ok acc.1 -> count_ok (store_loop msg acc rs).1.
Proof.
  induction rs as [|r rs IH]; intros acc H; simpl; [done|].
  apply IH, store_one_count, H.
Qed.

Lemma store_loop_keeps msg rs : forall acc rid x,
  Receipts acc.1 !! rid = Some x ->
  Receipts (store_loop msg acc rs).1 !! rid = Some x.
Proof.
  induction rs as [|r rs IH]; intros acc rid x H; simpl; [done|].
  apply IH, store_one_keeps, H.
Qed.

Lemma store_loop_flags msg rs : forall acc,
  Owner (store_loop msg acc rs).1 = Owner acc.1 /\
  Frozen (store_loop msg acc rs).1 = Frozen acc.1 /\
  Version (store_loop msg acc rs).1 = Version acc.1.
Proof.
  induction rs as [|r rs IH]; intros acc; simpl; [done|].
  destruct (IH (store_one msg acc r)) as (-> & -> & ->).
  apply store_one_flags.
Qed.

Lemma store_loop_present msg rs : forall acc r rid,
  r ∈ rs -> receipt_id r = Some rid ->
  is_Some (Receipts (store_loop msg acc rs).1 !! rid).
Proof.
  induction rs as [|r0 rs IH]; intros acc r rid Hin Hid; simpl.
  - by apply elem_of_nil in Hin.
  - apply elem_of_cons in Hin as [->|Hin]; [|by eapply IH].
    destruct (store_one_present msg acc r0 rid Hid) as [x Hx].
    exists x. by apply store_loop_keeps.
Qed.

Lemma store_loop_skips msg rs : forall st n,
  (forall r rid, r ∈ rs -> receipt_id r = Some rid -> is_Some (Receipts st !! rid)) ->
  store_loop msg (st, n) rs = (st, n).
Proof.
  induction rs as [|r rs IH]; intros st n H; cbn [foldl]; [done|].
  rewrite store_one_skips.
  - apply IH. intros r' rid Hin. apply H. by right.
  - intros rid. apply H. by left.
Qed.

(** *** The loop over elements that need not be tables *)

(** The loop stores the tables that come before the first element that
    cannot be indexed. *)
Lemma store_elements_loop msg elements : forall acc,
  exists rs, (store_elements msg acc elements).1 = store_loop msg acc rs.
Proof.
  induction elements as [|[r|] elements IH]; intros acc.
  - by exists [].
  - destruct (IH (store_one msg acc r)) as [rs Hrs]. by exists (r :: rs).
  - by exists [].
Qed.

Lemma store_elements_tables msg rs : forall acc,
  store_elements msg acc (Table <$> rs) = (store_loop msg acc rs, false).
Proof.
  induction rs as [|r rs IH]; intros acc; [done|]. cbn [fmap list_fmap store_elements foldl].
  apply IH.
Qed.

(** *** The handlers *)

(** The state [StoreReceipts] leaves is the one it found, or the one the
    loop reaches on some receipts. *)
Lemma StoreReceipts_state msg st :
  (StoreReceipts json_decode msg st).1 = st \/
  exists rs, (StoreReceipts json_decode msg st).1 = (store_loop msg (st, 0%Z) rs).1.
Proof.
  unfold StoreReceipts.
  destruct (Frozen st); [by left|].
  destruct (negb (is_owner st msg)); [by left|].
  destruct (parse_data json_decode msg) as [[d|]|]; [|by left..].
  destruct (d_receipts d) as [[elements|]|]; [|by left..].
  right. destruct (store_elements_loop msg elements (st, 0%Z)) as [rs Hrs].
  exists rs. rewrite <- Hrs.
  by destruct (store_elements msg (st, 0%Z) elements) as [[st' n] []].
Qed.

Lemma StoreReceipts_count msg st :
  count_ok st -> count_ok (StoreReceipts json_decode msg st).1.
Proof.
  intros H. destruct (StoreReceipts_state msg st) as [->|[rs ->]]; [done|].
  by apply store_loop_count.
Qed.

Lemma StoreReceipts_keeps msg st rid x :
  Receipts st !! rid = Some x ->
  Receipts (StoreReceipts json_decode msg st).1 !! rid = Some x.
Proof.
  intros H. destruct (StoreReceipts_state msg st) as [->|[rs ->]]; [done|].
  by apply store_loop_keeps.
Qed.

(** Every handler other than [StoreReceipts] leaves the receipt table and
    the counter as they are. *)
Lemma handle_cases msg st :
  (handle msg st).1 = (StoreReceipts json_decode msg st).1 \/
  (Receipts (handle msg st).1 = Receipts st /\
   ReceiptCount (handle msg st).1 = ReceiptCount st).
Proof.
  unfold Ledger.handle.
  destruct (hasMatchingTag "StoreReceipts" msg); [by left|right].
  unfold Freeze, Unfreeze, GetReceipt, ListReceipts, VerifyReceipt, GetStats.
  repeat destruct (hasMatchingTag _ msg); try done.
  all: by repeat case_match.
Qed.

Lemma handle_count msg st : count_ok st -> count_ok (handle msg st).1.
Proof.
  intros H. destruct (handle_cases msg st) as [->|[HR HC]].
  - by apply StoreReceipts_count.
  - unfold count_ok. by rewrite HR, HC.
Qed.

Lemma handle_keeps msg st rid x :
  Receipts st !! rid = Some x -> Receipts (handle msg st).1 !! rid = Some x.
Proof.
  intros H. destruct (handle_cases msg st) as [->|[HR HC]].
  - by apply StoreReceipts_keeps.
  - by rewrite HR.
Qed.

Lemma run_count msgs : forall st, count_ok st -> count_ok (run msgs st).
Proof.
  induction msgs as [|m msgs IH]; intros st H; simpl; [done|].
  apply IH, handle_count, H.
Qed.

Lemma run_keeps msgs : forall st rid x,
  Receipts st !! rid = Some x -> Receipts (run msgs st) !! rid = Some x.
Proof.
  induction msgs as [|m msgs IH]; intros st rid x H; simpl; [done|].
  apply IH, handle_keeps, H.
Qed.

Lemma StoreReceipts_accepted msg st data rs :
  Frozen st = false -> is_owner st msg = true ->
  parse_data json_decode msg = Some (Indexable data) ->
  d_receipts data = Some (Items (Table <$> rs)) ->
  StoreReceipts json_decode msg st =
    ((store_loop msg (st, 0%Z) rs).1,
     send_reply msg "ReceiptsStored"
       (RReceiptsStored (store_loop msg (st, 0%Z) rs).2
          (ReceiptCount (store_loop msg (st, 0%Z) rs).1))).
Proof.
  intros HF HO HP HR. unfold StoreReceipts. rewrite HF, HO, HP, HR. simpl.
  rewrite store_elements_tables.
  by destruct (store_loop msg (st, 0%Z) rs).
Qed.

(** C10. [State.ReceiptCount] equals the number of receipt ids stored in
    [State.Receipts]: the equality holds in the initial state, every handler
    preserves it, so it holds after any sequence of messages; the rejection
    paths of [StoreReceipts] (frozen process, sender not the owner) and the
    query handlers leave the state as it is, and [Freeze] and [Unfreeze]
    change neither the table nor the counter. *)
Theorem receipt_count_equals_stored_ids :
  count_ok (initial ao_id process_owner) /\
  (forall msg st, count_ok st -> count_ok (handle msg st).1) /\
  (forall msgs, count_ok (run msgs (initial ao_id process_owner))) /\
  (forall msg st, Frozen st = true \/ is_owner st msg = false ->
     (StoreReceipts json_decode msg st).1 = st) /\
  (forall msg st,
     Receipts (Freeze msg st).1 = Receipts st /\
     ReceiptCount (Freeze msg st).1 = ReceiptCount st /\
     Receipts (Unfreeze msg st).1 = Receipts st /\
     ReceiptCount (Unfreeze msg st).1 = ReceiptCount st) /\
  (forall msg st,
     (GetReceipt json_decode msg st).1 = st /\
     (ListReceipts tonumber msg st).1 = st /\
     (VerifyReceipt ao_id json_decode msg st).1 = st /\
     (GetStats ao_id msg st).1 = st).
Proof.
  split_and!.
  - unfold count_ok; simpl. by rewrite map_size_empty.
  - apply handle_count.
  - intros msgs. apply run_count. unfold count_ok; simpl. by rewrite map_size_empty.
  - intros msg st H. unfold StoreReceipts.
    destruct (Frozen st) eqn:HF; [done|].
    destruct H as [H|H]; [done|]. by rewrite H.
  - intros msg st. unfold Freeze, Unfreeze. by destruct (negb (is_owner st msg)).
  - intros msg st. unfold GetReceipt, ListReceipts, VerifyReceipt, GetStats.
    split_and!; try done; by repeat case_match.
Qed.

(** C9. A batch accepted by [StoreReceipts] leaves every record already in
    the store as it was (a receipt id already present is skipped), keeps the
    counter equal to the number of stored ids, and is answered with
    [ReceiptsStored], not with an error; storing the same receipts again, in
    a retry that is another message, changes nothing and is again answered
    with [ReceiptsStored], with [stored_count = 0]; and no later message of
    any kind changes a stored record. *)
Theorem duplicate_receipt_ids_are_skipped msg st data rs :
  Frozen st = false -> is_owner st msg = true ->
  parse_data json_decode msg = Some (Indexable data) ->
  d_receipts data = Some (Items (Table <$> rs)) ->
  let st1 := (StoreReceipts json_decode msg st).1 in
  (forall rid x, Receipts st !! rid = Some x -> Receipts st1 !! rid = Some x) /\
  (count_ok st -> count_ok st1) /\
  (exists from n,
     (StoreReceipts json_decode msg st).2 =
       [ {| Target := from; ReplyAction := "ReceiptsStored";
            Payload := RReceiptsStored n (ReceiptCount st1) |} ]) /\
  (forall retry data',
     is_owner st retry = true ->
     parse_data json_decode retry = Some (Indexable data') ->
     d_receipts data' = Some (Items (Table <$> rs)) ->
     StoreReceipts json_decode retry st1 =
       (st1, send_reply retry "ReceiptsStored"
               (RReceiptsStored 0 (ReceiptCount st1)))) /\
  (forall msgs rid x,
     Receipts st1 !! rid = Some x -> Receipts (run msgs st1) !! rid = Some x).
Proof.
  intros HF HO HP HR st1.
  pose proof (StoreReceipts_accepted msg st data rs HF HO HP HR) as Hacc.
  assert (Hst1 : st1 = (store_loop msg (st, 0%Z) rs).1) by (unfold st1; by rewrite Hacc).
  split_and!.
  - intros rid x. apply StoreReceipts_keeps.
  - apply StoreReceipts_count.
  - rewrite Hacc, Hst1. simpl.
    unfold is_owner in HO. unfold send_reply.
    destruct (From msg) as [from|]; [|done].
    by exists from, (store_loop msg (st, 0%Z) rs).2.
  - intros retry data' HO' HP' HR'.
    destruct (store_loop_flags msg rs (st, 0%Z)) as (HOw & HFr & _).
    rewrite <- Hst1 in HOw, HFr. simpl in HOw, HFr.
    rewrite (StoreReceipts_accepted retry st1 data' rs); try done.
    + rewrite store_loop_skips; [done|].
      intros r rid Hin Hid. rewrite Hst1. by eapply store_loop_present.
    + by rewrite HFr.
    + unfold is_owner in *. by rewrite HOw.
  - intros msgs rid x. apply run_keeps.
Qed.

End Process.

Lemma duplicate_receipt_ids_are_skipped_witness :
  let st := initial "process" (Some "owner") in
  let st1 := (StoreReceipts sample_decode (sample_msg "m1") st).1 in
  ReceiptCount st1 = 2%Z /\
  StoreReceipts sample_decode (sample_msg "m2") st1 =
    (st1, send_reply (sample_msg "m2") "ReceiptsStored" (RReceiptsStored 0 2)).
Proof.
  pose proof (duplicate_receipt_ids_are_skipped "process" sample_decode (fun _ => None)
                (sample_msg "m1") (initial "process" (Some "owner"))
                {| d_receipts := Some (Items (Table <$> sample_batch));
                   d_receipt_id := None |}
                sample_batch
                eq_refl eq_refl eq_refl eq_refl) as (_ & _ & _ & Hretry & _).
  intros st st1. split; [by vm_compute|].
  exact (Hretry (sample_msg "m2") _ eq_refl eq_refl eq_refl).
Defined.

End LedgerFacts.

(** * Properties of the HTTP server and the ledger client *)

Module HttpFacts.

Import Settler Http.

(** ** Lookups in a [Map] after [set] and [delete] *)

Section JsMap.

Context {V : Type}.
Implicit Types (m : JsMap V) (k : string) (v : V).

Lemma map_get_set_eq k v m : map_get k (map_set k v m) = Some v.
Proof.
  induction m as [|[k' v'] m IH]; simpl.
  - by rewrite bool_decide_eq_true_2.
  - case_bool_decide as E; simpl.
    + by rewrite bool_decide_eq_true_2.
    + by rewrite bool_decide_eq_false_2.
Qed.

Lemma map_get_set_ne k k' v m : k <> k' -> map_get k' (map_set k v m) = map_get k' m.
Proof.
  intros Hne. induction m as [|[k0 v0] m IH]; simpl.
  - by rewrite bool_decide_eq_false_2.
  - case_bool_decide as E; simpl.
    + subst k0. by rewrite !bool_decide_eq_false_2.
    + by rewrite IH.
Qed.

Lemma map_get_delete_eq k m : map_get k (map_delete k m) = None.
Proof.
  induction m as [|[k0 v0] m IH]; simpl; [done|].
  case_bool_decide as E; simpl; [done|]. by rewrite bool_decide_eq_false_2.
Qed.

Lemma map_get_delete_ne k k' m : k <> k' -> map_get k' (map_delete k m) = map_get k' m.
Proof.
  intros Hne. induction m as [|[k0 v0] m IH]; simpl; [done|].
  case_bool_decide as E; simpl.
  - subst k0. by rewrite bool_decide_eq_false_2.
  - by rewrite IH.
Qed.

Lemma map_get_elem k v m : map_get k m = Some v -> (k, v) ∈ m.
Proof.
  induction m as [|[k0 v0] m IH]; simpl; [done|].
  case_bool_decide as E.
  - intros [= ->]. subst. by left.
  - intros H. right. by apply IH.
Qed.

Lemma elem_map_get k v m : (k, v) ∈ m -> is_Some (map_get k m).
Proof.
  induction m as [|[k0 v0] m IH]; simpl.
  - intros H. by apply elem_of_nil in H.
  - intros H. case_bool_decide as E; [by eexists|].
    apply elem_of_cons in H as [[= -> ->]|H]; [done|by apply IH].
Qed.

Lemma map_get_all_None m : (forall k, map_get k m = None) -> m = [].
Proof.
  destruct m as [|[k0 v0] m]; [done|]. intros H. specialize (H k0).
  simpl in H. by rewrite bool_decide_eq_true_2 in H.
Qed.

Lemma map_values_elem v m : v ∈ map_values m -> exists k, (k, v) ∈ m.
Proof.
  unfold map_values. intros ([k v'] & -> & H)%list_elem_of_fmap. by exists k.
Qed.

Lemma entries_set P k v m : entries P m -> P k v -> entries P (map_set k v m).
Proof.
  intros Hm Hv. induction m as [|[k0 v0] m IH]; simpl.
  - intros k' v' [[= -> ->]|H]%elem_of_cons; [done|by apply elem_of_nil in H].
  - assert (entries P m) as Hm' by (intros ???; apply Hm; by right).
    case_bool_decide as E.
    + intros k' v' [[= -> ->]|H]%elem_of_cons; [done|by apply Hm'].
    + intros k' v' [[= -> ->]|H]%elem_of_cons; [apply Hm; by left|by apply IH].
Qed.

Lemma entries_delete P k m : entries P m -> entries P (map_delete k m).
Proof.
  intros Hm. induction m as [|[k0 v0] m IH]; simpl; [done|].
  assert (entries P m) as Hm' by (intros ???; apply Hm; by right).
  case_bool_decide as E; [by apply IH|].
  intros k' v' [[= -> ->]|H]%elem_of_cons; [apply Hm; by left|by apply IH].
Qed.

Lemma entries_get P k v m : entries P m -> map_get k m = Some v -> P k v.
Proof. intros Hm H. by apply Hm, map_get_elem. Qed.

End JsMap.

(** ** What each piece of server code does to the state *)

Section Server.

Context {crypto : NodeCrypto} {engine : JsEngine}.
Variable VERITAS_PROCESS_ID : option string.
Variable SERVER_PUBLIC_KEY : string.

Local Abbreviation handleRequest := (Http.handleRequest SERVER_PUBLIC_KEY).
Local Abbreviation settleReceipts := (Http.settleReceipts VERITAS_PROCESS_ID).
Local Abbreviation on_interval := (Http.on_interval VERITAS_PROCESS_ID).
Local Abbreviation handle := (Http.handle VERITAS_PROCESS_ID).
Local Abbreviation step := (Http.step VERITAS_PROCESS_ID).
Local Abbreviation run := (Http.run VERITAS_PROCESS_ID).
Local Abbreviation never_rewitnesses_settled :=
  (Http.never_rewitnesses_settled VERITAS_PROCESS_ID).

Lemma apply_result_eq result st :
  apply_result result st = (tt, apply_result_state result st).
Proof.
  unfold apply_result, apply_result_state, bind, pending_get; simpl.
  destruct (map_get _ _) as [p|]; [|done].
  by destruct (res_status result).
Qed.

Lemma apply_results_cons result rest st :
  (apply_results (result :: rest) st).2 =
  (apply_results rest (apply_result_state result st)).2.
Proof. simpl. unfold bind. by rewrite apply_result_eq. Qed.

Lemma apply_result_frame result st :
  in_flight (apply_result_state result st) = in_flight st /\
  crypto_calls (apply_result_state result st) = crypto_calls st.
Proof. unfold apply_result_state. by repeat case_match. Qed.

Lemma apply_results_frame results : forall st,
  in_flight (apply_results results st).2 = in_flight st /\
  crypto_calls (apply_results results st).2 = crypto_calls st.
Proof.
  induction results as [|r rs IH]; intros st; [done|].
  rewrite apply_results_cons.
  destruct (IH (apply_result_state r st)) as [-> ->]. apply apply_result_frame.
Qed.

Lemma witnessDecision_eq request now entropy st :
  witnessDecision now entropy request st =
  (witnessed request now entropy,
   {| pendingReceipts :=
        map_set (receipt_id_of request now)
          {| base := witnessed request now entropy; full_payload := request |}
          (pendingReceipts st);
      settledReceipts := settledReceipts st;
      in_flight := in_flight st;
      crypto_calls :=
        (crypto_calls st ++ [Hashed (hashed_payload request now)])
          ++ [Signed (sha256_hex (hashed_payload request now))] |}).
Proof. reflexivity. Qed.

Lemma verifyReceipt_stores rid st :
  pendingReceipts (verifyReceipt rid st).2 = pendingReceipts st /\
  settledReceipts (verifyReceipt rid st).2 = settledReceipts st /\
  in_flight (verifyReceipt rid st).2 = in_flight st.
Proof.
  unfold verifyReceipt, bind, settled_get, pending_get; simpl.
  destruct (map_get rid (settledReceipts st)); [done|].
  by destruct (map_get rid (pendingReceipts st)).
Qed.

(** The timer callback: nothing when no receipt is pending; otherwise the
    results are applied at once, or the execution is suspended. *)
Lemma on_interval_empty wallet clock st :
  pendingReceipts st = [] -> on_interval wallet clock st = (tt, st).
Proof.
  intros E. unfold Http.on_interval, bind, pending_size, map_size. by rewrite E.
Qed.

Lemma on_interval_nonempty wallet clock st :
  pendingReceipts st <> [] ->
  (on_interval wallet clock st).2 =
  match settleToArweave_start VERITAS_PROCESS_ID None wallet clock
          (map_values (pendingReceipts st)) with
  | Resolved results => (apply_results results st).2
  | Sent _ => (suspend (map_values (pendingReceipts st)) st).2
  | Rejected => st
  end.
Proof.
  intros E.
  unfold Http.on_interval, Http.settleReceipts, bind, pending_size, pending_values, map_size.
  destruct (length (pendingReceipts st)) as [|n] eqn:El.
  - by destruct (pendingReceipts st).
  - cbn [Nat.ltb Nat.leb Nat.eqb]. rewrite El. cbn [Nat.eqb].
    by destruct (settleToArweave_start _ _ _ _ _).
Qed.

Lemma on_interval_cases wallet clock st :
  let batch := map_values (pendingReceipts st) in
  let st' := (on_interval wallet clock st).2 in
  st' = st \/
  (exists results,
     settleToArweave_start VERITAS_PROCESS_ID None wallet clock batch = Resolved results /\
     st' = (apply_results results st).2) \/
  (exists m,
     settleToArweave_start VERITAS_PROCESS_ID None wallet clock batch = Sent m /\
     st' = (suspend batch st).2).
Proof.
  intros batch st'. unfold st'.
  destruct (decide (pendingReceipts st = [])) as [E|E].
  - left. by rewrite on_interval_empty.
  - rewrite on_interval_nonempty by done. fold batch.
    destruct (settleToArweave_start _ _ _ _ _) as [results|m|];
      [right; left|right; right|by left]; by eexists.
Qed.

Lemma settleReceipts_resume_eq k o st :
  (settleReceipts_resume k o st).2 =
  match in_flight st !! k with
  | Some batch => (apply_results (settleToArweave_finish batch o) (resume k st).2).2
  | None => (resume k st).2
  end.
Proof.
  unfold settleReceipts_resume, bind. simpl.
  by destruct (in_flight st !! k).
Qed.

(** ** Results the settler can produce *)

Lemma simulated_elem clock res rs : forall n,
  res ∈ simulated clock n rs ->
  exists i r, r ∈ rs /\ res_receipt_id res = receipt_id (base r) /\
    res_status res = r_settled /\
    res_arweave_tx res =
      Some ("sim_" +:+ pretty (clock i) +:+ "_" +:+ receipt_id (base r)).
Proof.
  induction rs as [|r rs IH]; intros n; simpl.
  - intros H. by apply elem_of_nil in H.
  - intros [->|H]%elem_of_cons.
    + exists n, r. split; [by left|done].
    + destruct (IH _ H) as (i & r' & Hin & ?). exists i, r'. split; [by right|done].
Qed.

Lemma simulated_covers clock r rs : forall n,
  r ∈ rs -> exists res, res ∈ simulated clock n rs /\
    res_receipt_id res = receipt_id (base r).
Proof.
  induction rs as [|r0 rs IH]; intros n; simpl.
  - intros H. by apply elem_of_nil in H.
  - intros [->|H]%elem_of_cons.
    + eexists. split; [by left|done].
    + destruct (IH (S (S n)) H) as (res & Hin & ?). exists res. split; [by right|done].
Qed.

Lemma start_results_carry_tx processId wallet clock rs results :
  settleToArweave_start VERITAS_PROCESS_ID processId wallet clock rs = Resolved results ->
  Forall carries_tx results.
Proof.
  unfold settleToArweave_start. intros Hstart.
  apply Forall_forall; intros res Hres. unfold carries_tx.
  repeat case_match; simplify_eq.
  all: first
    [ apply list_elem_of_fmap in Hres as (r & -> & _); done
    | apply simulated_elem in Hres as (i & r & _ & _ & _ & ->); by eexists ].
Qed.

Lemma finish_results_carry_tx rs o :
  Forall carries_tx (settleToArweave_finish rs o).
Proof.
  apply Forall_forall; intros res Hres. unfold carries_tx.
  destruct o; simpl in Hres; apply list_elem_of_fmap in Hres as (r & -> & _);
    simpl; [by eexists|done].
Qed.

(** *** Applying results *)

Lemma apply_result_has_settled res st k :
  has_settled st k -> has_settled (apply_result_state res st) k.
Proof.
  unfold has_settled, apply_result_state.
  destruct (map_get (res_receipt_id res) (pendingReceipts st)) as [p|]; [|done].
  destruct (res_status res); [|done]. simpl.
  destruct (decide (res_receipt_id res = k)) as [->|Hne].
  - rewrite map_get_set_eq. by eexists.
  - by rewrite map_get_set_ne.
Qed.

Lemma apply_result_known res st k :
  known st k -> known (apply_result_state res st) k.
Proof.
  intros [H|H]; [|right; by apply apply_result_has_settled].
  unfold known, has_pending, has_settled, apply_result_state in *.
  destruct (map_get (res_receipt_id res) (pendingReceipts st)) as [p|] eqn:E; [|by left].
  destruct (res_status res); [|by left]. simpl.
  destruct (decide (res_receipt_id res = k)) as [->|Hne].
  - right. rewrite map_get_set_eq. by eexists.
  - left. by rewrite map_get_delete_ne.
Qed.

Lemma apply_result_wf res st :
  well_formed st -> carries_tx res -> well_formed (apply_result_state res st).
Proof.
  intros [Hp Hs Hf] Htx. split.
  - unfold apply_result_state. repeat case_match; try done. simpl.
    by apply entries_delete.
  - unfold apply_result_state.
    destruct (map_get (res_receipt_id res) (pendingReceipts st)) as [p|] eqn:E; [|done].
    destruct (res_status res) eqn:Es; [|done]. simpl.
    apply entries_set; [done|].
    destruct (entries_get _ _ _ _ Hp E) as (Hid & _ & _).
    split_and!; [done|done|by apply Htx].
  - intros batch r Hb Hr. apply apply_result_known.
    destruct (apply_result_frame res st) as [Hfl _]. rewrite Hfl in Hb. by eapply Hf.
Qed.

Lemma apply_result_signed res st :
  well_signed st -> well_signed (apply_result_state res st).
Proof.
  intros [Hp Hs]. split.
  - unfold apply_result_state. repeat case_match; try done. simpl.
    by apply entries_delete.
  - unfold apply_result_state.
    destruct (map_get (res_receipt_id res) (pendingReceipts st)) as [p|] eqn:E; [|done].
    destruct (res_status res) eqn:Es; [|done]. simpl.
    apply entries_set; [done|]. exact (entries_get _ _ _ _ Hp E).
Qed.

Lemma apply_results_wf results : forall st,
  well_formed st -> Forall carries_tx results ->
  well_formed (apply_results results st).2.
Proof.
  induction results as [|r rs IH]; intros st Hst Hrs; [done|].
  rewrite apply_results_cons. apply Forall_cons in Hrs as [Hr Hrs].
  apply IH; [by apply apply_result_wf|done].
Qed.

Lemma apply_results_signed results : forall st,
  well_signed st -> well_signed (apply_results results st).2.
Proof.
  induction results as [|r rs IH]; intros st Hst; [done|].
  rewrite apply_results_cons. by apply IH, apply_result_signed.
Qed.

Lemma apply_results_has_settled results k : forall st,
  has_settled st k -> has_settled (apply_results results st).2 k.
Proof.
  induction results as [|r rs IH]; intros st Hst; [done|].
  rewrite apply_results_cons. by apply IH, apply_result_has_settled.
Qed.

Lemma apply_results_known results k : forall st,
  known st k -> known (apply_results results st).2 k.
Proof.
  induction results as [|r rs IH]; intros st Hst; [done|].
  rewrite apply_results_cons. by apply IH, apply_result_known.
Qed.

(** What one result does to the entries of a key. *)
Lemma apply_result_other res st k :
  res_receipt_id res <> k ->
  map_get k (pendingReceipts (apply_result_state res st)) = map_get k (pendingReceipts st) /\
  map_get k (settledReceipts (apply_result_state res st)) = map_get k (settledReceipts st).
Proof.
  intros Hne. unfold apply_result_state. repeat case_match; try done. simpl.
  by rewrite map_get_delete_ne, map_get_set_ne.
Qed.

Lemma apply_result_not_pending res st k :
  map_get k (pendingReceipts st) = None ->
  map_get k (pendingReceipts (apply_result_state res st)) = None /\
  map_get k (settledReceipts (apply_result_state res st)) = map_get k (settledReceipts st).
Proof.
  intros Hk. destruct (decide (res_receipt_id res = k)) as [<-|Hne].
  - unfold apply_result_state. by rewrite Hk.
  - destruct (apply_result_other res st k Hne) as [-> ->]. done.
Qed.

Lemma apply_result_settles res st k p :
  map_get k (pendingReceipts st) = Some p ->
  res_receipt_id res = k -> res_status res = r_settled ->
  map_get k (pendingReceipts (apply_result_state res st)) = None /\
  map_get k (settledReceipts (apply_result_state res st))
    = Some (promoted p (res_arweave_tx res)).
Proof.
  intros Hk <- Hs. unfold apply_result_state. rewrite Hk, Hs. simpl.
  by rewrite map_get_delete_eq, map_get_set_eq.
Qed.

Lemma apply_results_not_pending results k : forall st,
  map_get k (pendingReceipts st) = None ->
  map_get k (pendingReceipts (apply_results results st).2) = None /\
  map_get k (settledReceipts (apply_results results st).2) = map_get k (settledReceipts st).
Proof.
  induction results as [|r rs IH]; intros st Hk; [done|].
  rewrite apply_results_cons.
  destruct (apply_result_not_pending r st k Hk) as [Hp Hs].
  destruct (IH _ Hp) as [-> ->]. done.
Qed.

(** A pending receipt named by a batch of [r_settled] results is moved to
    the settled store, with the transaction of one of the results that name
    it. *)
Lemma apply_results_settles results k p : forall st,
  map_get k (pendingReceipts st) = Some p ->
  Forall (fun res => res_status res = r_settled) results ->
  (exists res, res ∈ results /\ res_receipt_id res = k) ->
  map_get k (pendingReceipts (apply_results results st).2) = None /\
  exists res, res ∈ results /\ res_receipt_id res = k /\
    map_get k (settledReceipts (apply_results results st).2)
      = Some (promoted p (res_arweave_tx res)).
Proof.
  induction results as [|r rs IH]; intros st Hk Hall (res & Hin & Hid).
  - by apply elem_of_nil in Hin.
  - rewrite apply_results_cons. apply Forall_cons in Hall as [Hr Hall].
    destruct (decide (res_receipt_id r = k)) as [Heq|Hne].
    + destruct (apply_result_settles r st k p Hk Heq Hr) as [Hp Hs].
      destruct (apply_results_not_pending rs k _ Hp) as [-> ->].
      split; [done|]. exists r. split_and!; [by left|done|done].
    + destruct (apply_result_other r st k Hne) as [Hp Hs].
      apply elem_of_cons in Hin as [->|Hin]; [done|].
      destruct (IH (apply_result_state r st)) as (Hnone & res' & Hin' & Hid' & Hget).
      * by rewrite Hp.
      * done.
      * by exists res.
      * split; [done|]. exists res'. split_and!; [by right|done|done].
Qed.

Lemma apply_results_failed results : forall st,
  Forall (fun res => res_status res = r_failed) results ->
  apply_results results st = (tt, st).
Proof.
  induction results as [|r rs IH]; intros st Hall; [done|].
  apply Forall_cons in Hall as [Hr Hall].
  simpl. unfold bind. rewrite apply_result_eq.
  unfold apply_result_state. rewrite Hr.
  destruct (map_get _ _); by apply IH.
Qed.

(** *** One step of the event loop *)

Lemma step_PostWitness body now entropy st :
  step st (PostWitness body now entropy) =
  match as_request body with
  | Some request => (witnessDecision now entropy request st).2
  | None => st
  end.
Proof.
  unfold Http.step, Http.handle, post_witness.
  destruct body as [|b|x|s|items|members]; try done.
  by destruct (as_request (VObject members)).
Qed.

Lemma step_GetVerify rid st : step st (GetVerify rid) = (verifyReceipt rid st).2.
Proof.
  unfold Http.step, Http.handle, get_verify, bind. by destruct (verifyReceipt rid st).
Qed.

Lemma step_Interval wallet clock st :
  step st (Interval wallet clock) = (on_interval wallet clock st).2.
Proof.
  unfold Http.step, Http.handle, bind. by destruct (Http.on_interval _ _ _ _).
Qed.

Lemma step_LedgerReturns k o st :
  step st (LedgerReturns k o) = (settleReceipts_resume k o st).2.
Proof.
  unfold Http.step, Http.handle, bind. by destruct (settleReceipts_resume _ _ _).
Qed.

Lemma run_snoc es e st : run (es ++ [e]) st = step (run es st) e.
Proof. unfold Http.run. by rewrite foldl_snoc. Qed.

Lemma map_set_keeps {V} k k' (v : V) m :
  is_Some (map_get k m) -> is_Some (map_get k (map_set k' v m)).
Proof.
  intros H. destruct (decide (k' = k)) as [->|Hne].
  - rewrite map_get_set_eq. by eexists.
  - by rewrite map_get_set_ne.
Qed.

Lemma step_has_settled e st k : has_settled st k -> has_settled (step st e) k.
Proof.
  intros H. destruct e as [body now entropy|rid|wallet clock|j o].
  - rewrite step_PostWitness. destruct (as_request body); [|done].
    by rewrite witnessDecision_eq.
  - rewrite step_GetVerify. unfold has_settled.
    by destruct (verifyReceipt_stores rid st) as (_ & -> & _).
  - rewrite step_Interval.
    destruct (on_interval_cases wallet clock st) as [->|[(rs & _ & ->)|(m & _ & ->)]];
      [done| |done].
    by apply apply_results_has_settled.
  - rewrite step_LedgerReturns, settleReceipts_resume_eq.
    destruct (in_flight st !! j); [|done]. by apply apply_results_has_settled.
Qed.

Lemma step_known e st k : known st k -> known (step st e) k.
Proof.
  intros H. destruct e as [body now entropy|rid|wallet clock|j o].
  - rewrite step_PostWitness. destruct (as_request body); [|done].
    rewrite witnessDecision_eq. destruct H as [H|H]; [left|by right].
    by apply map_set_keeps.
  - rewrite step_GetVerify. unfold known, has_pending, has_settled.
    by destruct (verifyReceipt_stores rid st) as (-> & -> & _).
  - rewrite step_Interval.
    destruct (on_interval_cases wallet clock st) as [->|[(rs & _ & ->)|(m & _ & ->)]];
      [done| |done].
    by apply apply_results_known.
  - rewrite step_LedgerReturns, settleReceipts_resume_eq.
    destruct (in_flight st !! j); [|done]. by apply apply_results_known.
Qed.

Lemma step_wf e st : well_formed st -> well_formed (step st e).
Proof.
  intros Hst. pose proof Hst as [Hp Hs Hf].
  destruct e as [body now entropy|rid|wallet clock|j o].
  - rewrite step_PostWitness. destruct (as_request body) as [request|]; [|done].
    rewrite witnessDecision_eq. split; simpl.
    + by apply entries_set.
    + done.
    + intros batch r Hb Hr. destruct (Hf batch r Hb Hr) as [H|H]; [left|by right].
      by apply map_set_keeps.
  - rewrite step_GetVerify.
    destruct (verifyReceipt_stores rid st) as (Ep & Es & Ef).
    split; unfold known, has_pending, has_settled; rewrite ?Ep, ?Es, ?Ef; done.
  - rewrite step_Interval.
    destruct (on_interval_cases wallet clock st) as [->|[(rs & Es & ->)|(m & _ & ->)]];
      [done| |].
    + apply apply_results_wf; [done|]. by eapply start_results_carry_tx.
    + split; simpl; [done|done|].
      intros batch r [Hb|Hb%list_elem_of_singleton]%elem_of_app Hr; [by eapply Hf|].
      subst batch. apply map_values_elem in Hr as [k Hk]. left.
      destruct (Hp k r Hk) as (<- & _). by eapply elem_map_get.
  - rewrite step_LedgerReturns, settleReceipts_resume_eq.
    assert (well_formed (resume j st).2) as Hres.
    { split; simpl; [done|done|].
      intros batch r Hb Hr. eapply Hf; [|done].
      by eapply list_elem_of_delete_inv. }
    destruct (in_flight st !! j); [|done].
    apply apply_results_wf; [done|]. apply finish_results_carry_tx.
Qed.

Lemma run_wf es : well_formed (run es initial).
Proof.
  induction es as [|e es IH] using rev_ind.
  - split; simpl; intros ??; by intros ?%elem_of_nil.
  - rewrite run_snoc. by apply step_wf.
Qed.

(** *** No receipt in both stores *)

Lemma apply_result_disjoint res st :
  disjoint st -> disjoint (apply_result_state res st).
Proof.
  intros Hd k. unfold has_pending, has_settled.
  destruct (decide (res_receipt_id res = k)) as [<-|Hne].
  - unfold apply_result_state.
    destruct (map_get (res_receipt_id res) (pendingReceipts st)) as [p|] eqn:E.
    + destruct (res_status res); [|apply Hd]. simpl.
      rewrite map_get_delete_eq. by intros [[? [=]] _].
    + apply Hd.
  - destruct (apply_result_other res st k Hne) as [-> ->]. apply Hd.
Qed.

Lemma apply_results_disjoint results : forall st,
  disjoint st -> disjoint (apply_results results st).2.
Proof.
  induction results as [|r rs IH]; intros st Hst; [done|].
  rewrite apply_results_cons. by apply IH, apply_result_disjoint.
Qed.

Lemma step_disjoint e st :
  disjoint st -> (forall id, id ∈ created_by e -> ~ has_settled st id) ->
  disjoint (step st e).
Proof.
  intros Hd Hfresh. destruct e as [body now entropy|rid|wallet clock|j o].
  - rewrite step_PostWitness. simpl in Hfresh.
    destruct (as_request body) as [request|]; [|done].
    rewrite witnessDecision_eq. intros k [Hp Hs].
    unfold has_pending, has_settled in *; simpl in *.
    destruct (decide (receipt_id_of request now = k)) as [<-|Hne].
    + apply (Hfresh (receipt_id_of request now)); [by left|done].
    + rewrite map_get_set_ne in Hp by done. by apply (Hd k).
  - rewrite step_GetVerify. intros k. unfold has_pending, has_settled.
    destruct (verifyReceipt_stores rid st) as (-> & -> & _). apply Hd.
  - rewrite step_Interval.
    destruct (on_interval_cases wallet clock st) as [->|[(rs & _ & ->)|(m & _ & ->)]];
      [done| |done].
    by apply apply_results_disjoint.
  - rewrite step_LedgerReturns, settleReceipts_resume_eq.
    destruct (in_flight st !! j); [|done]. by apply apply_results_disjoint.
Qed.

Lemma run_disjoint es : forall st,
  disjoint st -> never_rewitnesses_settled es st -> disjoint (run es st).
Proof.
  induction es as [|e es IH]; intros st Hd Hn; [done|].
  destruct Hn as [Hfresh Hn]. simpl. apply IH; [|done]. by apply step_disjoint.
Qed.

Lemma run_created_known es : forall id, id ∈ created es -> known (run es initial) id.
Proof.
  induction es as [|e es IH] using rev_ind; intros id.
  - intros H. by apply elem_of_nil in H.
  - unfold created. rewrite bind_app. rewrite run_snoc.
    intros [H|H]%elem_of_app; [by apply step_known, IH|].
    simpl in H. rewrite app_nil_r in H.
    destruct e as [body now entropy| | |]; try by apply elem_of_nil in H.
    simpl in H. rewrite step_PostWitness.
    destruct (as_request body) as [request|]; [|by apply elem_of_nil in H].
    apply list_elem_of_singleton in H as ->.
    rewrite witnessDecision_eq. left. unfold has_pending; simpl.
    rewrite map_get_set_eq. by eexists.
Qed.

(** ** The claims about the settlement timer and the stores *)

(** C1, as the code has it.  In every state the server can reach: when a
    process id is configured and no wallet is found, the ledger client
    returns one result for each receipt of the batch, in order, with status
    failed, no transaction and the error "No wallet configured", and the tick
    changes nothing, so every receipt of the batch stays in the pending
    store, to be submitted again by the next tick; when no process id is
    configured, the client returns the simulated results, and the tick
    empties the pending store and moves every receipt to the settled store,
    with status [Settled] and a [sim_] transaction id; and no stored receipt
    has status [Failed]. *)
Theorem configuration_failure_outcomes es wallet clock :
  let st := run es initial in
  let batch := map_values (pendingReceipts st) in
  (forall target, DEFAULT_PROCESS_ID VERITAS_PROCESS_ID = Some target ->
     (exists results,
        settleToArweave_start VERITAS_PROCESS_ID None None clock batch
          = Resolved results /\
        Forall2 (fun r res =>
                   res_receipt_id res = receipt_id (base r) /\
                   res_status res = r_failed /\
                   res_arweave_tx res = None /\
                   ao_message_id res = None /\
                   error res = Some "No wallet configured") batch results) /\
     on_interval None clock st = (tt, st)) /\
  (DEFAULT_PROCESS_ID VERITAS_PROCESS_ID = None ->
     let st' := (on_interval wallet clock st).2 in
     settleToArweave_start VERITAS_PROCESS_ID None wallet clock batch
       = Resolved (simulated clock 0 batch) /\
     pendingReceipts st' = [] /\
     forall k p, map_get k (pendingReceipts st) = Some p ->
       exists i, map_get k (settledReceipts st')
         = Some (promoted p (Some ("sim_" +:+ pretty (clock i) +:+ "_" +:+ k)))) /\
  (forall k p, map_get k (pendingReceipts st) = Some p -> status (base p) = Pending) /\
  (forall k s, map_get k (settledReceipts st) = Some s -> status s = Settled).
Proof.
  intros st batch. pose proof (run_wf es) as [Hp Hs Hf]. fold st in Hp, Hs, Hf.
  split_and!.
  - intros target Ht.
    assert (settleToArweave_start VERITAS_PROCESS_ID None None clock batch
            = Resolved (all_failed "No wallet configured" batch)) as Hstart.
    { unfold settleToArweave_start. simpl. by rewrite Ht. }
    split.
    { eexists. split; [exact Hstart|]. unfold all_failed.
      apply Forall2_fmap_r, Forall_Forall2_diag, Forall_forall. by intros r _. }
    destruct (decide (pendingReceipts st = [])) as [E|E].
    { by apply on_interval_empty. }
    destruct (on_interval None clock st) as [[] st2] eqn:Eo.
    f_equal. change st2 with (tt, st2).2. rewrite <- Eo.
    rewrite on_interval_nonempty by done. fold batch. rewrite Hstart.
    rewrite apply_results_failed; [done|].
    apply Forall_forall. by intros res (r & -> & _)%list_elem_of_fmap.
  - intros Hnone st'.
    assert (settleToArweave_start VERITAS_PROCESS_ID None wallet clock batch
            = Resolved (simulated clock 0 batch)) as Hstart.
    { unfold settleToArweave_start. simpl. by rewrite Hnone. }
    split; [exact Hstart|].
    assert (Hst' : st' = (apply_results
                            (simulated clock 0 (map_values (pendingReceipts st))) st).2).
    { unfold st'. destruct (decide (pendingReceipts st = [])) as [E|E].
      - rewrite on_interval_empty by done. by rewrite E.
      - rewrite on_interval_nonempty by done. fold batch. by rewrite Hstart. }
    assert (Hall : Forall (fun res => res_status res = r_settled)
                     (simulated clock 0 (map_values (pendingReceipts st)))).
    { apply Forall_forall. by intros res (i & r & _ & _ & ? & _)%simulated_elem. }
    assert (Hmoved : forall k p, map_get k (pendingReceipts st) = Some p ->
              map_get k (pendingReceipts st') = None /\
              exists i, map_get k (settledReceipts st')
                = Some (promoted p (Some ("sim_" +:+ pretty (clock i) +:+ "_" +:+ k)))).
    { intros k p Hk. rewrite Hst'.
      destruct (apply_results_settles _ k p st Hk Hall) as (Hnp & res & Hin & Hid & Hget).
      - destruct (Hp k p (map_get_elem _ _ _ Hk)) as (Hkey & _).
        destruct (simulated_covers clock p (map_values (pendingReceipts st)) 0%nat)
          as (res & Hin & Hid).
        { unfold map_values. apply list_elem_of_fmap. exists (k, p).
          split; [done|by apply map_get_elem]. }
        exists res. split; [done|congruence].
      - split; [done|].
        apply simulated_elem in Hin as (i & r & _ & Hr & _ & Htx).
        exists i. rewrite Hget, Htx. do 4 f_equal. congruence. }
    split.
    + apply map_get_all_None. intros k.
      destruct (map_get k (pendingReceipts st)) as [p|] eqn:Hk.
      * by destruct (Hmoved k p Hk).
      * rewrite Hst'. by destruct (apply_results_not_pending
                                     (simulated clock 0 (map_values (pendingReceipts st)))
                                     k st Hk).
    + intros k p Hk. by destruct (Hmoved k p Hk).
  - intros k p Hk. by destruct (Hp k p (map_get_elem _ _ _ Hk)) as (_ & ? & _).
  - intros k x Hk. by destruct (Hs k x (map_get_elem _ _ _ Hk)) as (_ & ? & _).
Qed.

(** C2, as the code has it.  The timer callback starts a settlement whenever
    a receipt is pending, whatever is still in flight.  With a process id and
    a wallet, and when the client can build the entry of every pending
    receipt, the new execution joins the suspended ones, with the whole
    pending store as its batch; when building the entry of some pending
    receipt throws, the settlement ends there and the tick changes nothing.
    The entry of a receipt whose context and logic are strings can be built;
    the entry of a receipt whose logic is not a string cannot.  The callback
    does nothing only when the pending store is empty. *)
Theorem interval_starts_a_settlement_whatever_is_in_flight wallet clock st :
  let batch := map_values (pendingReceipts st) in
  (pendingReceipts st = [] -> on_interval wallet clock st = (tt, st)) /\
  (pendingReceipts st <> [] ->
   forall target w,
     DEFAULT_PROCESS_ID VERITAS_PROCESS_ID = Some target -> wallet = Some w ->
     let st' := (on_interval wallet clock st).2 in
     (Forall (fun r => is_Some (summary r)) batch ->
      in_flight st' = (in_flight st ++ [batch])%list /\
      pendingReceipts st' = pendingReceipts st /\
      settledReceipts st' = settledReceipts st) /\
     (Exists (fun r => summary r = None) batch -> st' = st)) /\
  (forall r c l,
     context (full_payload r) = VString c -> logic (full_payload r) = VString l ->
     is_Some (summary r)) /\
  (forall r, (forall l, logic (full_payload r) <> VString l) -> summary r = None).
Proof.
  intros batch. split_and!.
  - apply on_interval_empty.
  - intros E target w Ht -> st'. unfold st'.
    rewrite on_interval_nonempty by done. fold batch.
    unfold settleToArweave_start. simpl. rewrite Ht. split.
    + intros [entries ->]%mapM_is_Some. done.
    + intros H%mapM_None. by rewrite H.
  - intros r c l Hc Hl. unfold summary. rewrite Hc, Hl. by eexists.
  - intros r Hl. unfold summary.
    destruct (hashString_of _); [|done].
    destruct (logic (full_payload r)) as [| | |l0| |]; try done. by destruct (Hl l0).
Qed.

(** C3, as the code has it.  After any sequence of requests, timer ticks and
    ledger replies, every receipt id that a witnessing call has created is in
    the pending store or in the settled store (never in neither); and no id
    is in both, provided no witnessing call produced an id that was in the
    settled store at that moment. *)
Theorem created_receipts_stay_in_a_store es :
  let st := run es initial in
  (forall id, id ∈ created es -> has_pending st id \/ has_settled st id) /\
  (never_rewitnesses_settled es initial ->
   forall id, ~ (has_pending st id /\ has_settled st id)).
Proof.
  intros st. split.
  - apply run_created_known.
  - intros Hn. apply run_disjoint; [|done].
    intros k [[? [=]] _].
Qed.

(** ** The claims about [verify] and about invalid requests *)

Lemma verifyReceipt_settled rid st x :
  map_get rid (settledReceipts st) = Some x ->
  (verifyReceipt rid st).1 =
    {| valid := ecdsa_verify (hash x) (signature x);
       receipt := Some x;
       message := if ecdsa_verify (hash x) (signature x)
                  then "Receipt verified and settled" else "Invalid signature" |}.
Proof.
  intros H. unfold verifyReceipt, bind, settled_get; simpl. by rewrite H.
Qed.

Lemma verifyReceipt_pending rid st p :
  map_get rid (settledReceipts st) = None ->
  map_get rid (pendingReceipts st) = Some p ->
  (verifyReceipt rid st).1 =
    {| valid := ecdsa_verify (hash (base p)) (signature (base p));
       receipt := Some (base p);
       message := if ecdsa_verify (hash (base p)) (signature (base p))
                  then "Receipt verified, settlement pending" else "Invalid signature" |}.
Proof.
  intros Hs Hp. unfold verifyReceipt, bind, settled_get, pending_get; simpl.
  by rewrite Hs, Hp.
Qed.

Lemma verifyReceipt_unknown rid st :
  map_get rid (settledReceipts st) = None ->
  map_get rid (pendingReceipts st) = None ->
  (verifyReceipt rid st).1 =
    {| valid := false; receipt := None; message := "Receipt not found" |}.
Proof.
  intros Hs Hp. unfold verifyReceipt, bind, settled_get, pending_get; simpl.
  by rewrite Hs, Hp.
Qed.

(** C6. [verifyReceipt] looks in the settled store first and in the pending
    store next.  For an id in neither it answers [valid = false] with the
    message "Receipt not found", and that message is given in no other case;
    for a record it finds, the answer is the outcome of the signature check,
    and a failed check is reported as "Invalid signature", a different
    message.  The call leaves both stores (and the suspended settlements) as
    they were. *)
Theorem verify_tells_not_found_from_invalid rid st :
  let result := (verifyReceipt rid st).1 in
  let st' := (verifyReceipt rid st).2 in
  (pendingReceipts st' = pendingReceipts st /\
   settledReceipts st' = settledReceipts st /\
   in_flight st' = in_flight st) /\
  match map_get rid (settledReceipts st), map_get rid (pendingReceipts st) with
  | Some x, _ =>
      receipt result = Some x /\
      valid result = ecdsa_verify (hash x) (signature x) /\
      message result = (if valid result then "Receipt verified and settled"
                        else "Invalid signature")
  | None, Some p =>
      receipt result = Some (base p) /\
      valid result = ecdsa_verify (hash (base p)) (signature (base p)) /\
      message result = (if valid result then "Receipt verified, settlement pending"
                        else "Invalid signature")
  | None, None =>
      result = {| valid := false; receipt := None; message := "Receipt not found" |}
  end /\
  (message result = "Receipt not found" <->
   map_get rid (settledReceipts st) = None /\ map_get rid (pendingReceipts st) = None) /\
  (message result = "Invalid signature" <->
   exists w, receipt result = Some w /\ ecdsa_verify (hash w) (signature w) = false).
Proof.
  intros result st'. split; [apply verifyReceipt_stores|].
  unfold result.
  destruct (map_get rid (settledReceipts st)) as [x|] eqn:Hs.
  - rewrite (verifyReceipt_settled rid st x Hs). simpl.
    destruct (ecdsa_verify (hash x) (signature x)) eqn:Hv.
    + split_and!; try done.
      * split; [done|]. by intros [[=] _].
      * split; [done|]. intros (w & [= <-] & Hw). congruence.
    + split_and!; try done.
      * split; [done|]. by intros [[=] _].
      * split; [|done]. intros _. by exists x.
  - destruct (map_get rid (pendingReceipts st)) as [p|] eqn:Hp.
    + rewrite (verifyReceipt_pending rid st p Hs Hp). simpl.
      destruct (ecdsa_verify (hash (base p)) (signature (base p))) eqn:Hv.
      * split_and!; try done.
        -- split; [done|]. by intros [_ [=]].
        -- split; [done|]. intros (w & [= <-] & Hw). congruence.
      * split_and!; try done.
        -- split; [done|]. by intros [_ [=]].
        -- split; [|done]. intros _. by exists (base p).
    + rewrite (verifyReceipt_unknown rid st Hs Hp). simpl.
      split_and!; try done. split; [done|]. by intros (w & [=] & _).
Qed.


Lemma as_request_Some body request :
  as_request body = Some request <->
  member "context" body = Some (context request) /\
  member "logic" body = Some (logic request) /\
  member "action" body = Some (action request) /\
  member "agent_id" body = agent_id request /\
  ToBoolean (context request) = true /\ ToBoolean (logic request) = true /\
  ToBoolean (action request) = true.
Proof.
  unfold as_request. split.
  - destruct (member "context" body) as [c|]; [|done].
    destruct (member "logic" body) as [l|]; [|done].
    destruct (member "action" body) as [a|]; [|done].
    destruct (ToBoolean c) eqn:Tc, (ToBoolean l) eqn:Tl, (ToBoolean a) eqn:Ta;
      try done.
    by intros [= <-].
  - intros (-> & -> & -> & Hg & -> & -> & ->). simpl. destruct request. simpl in *.
    by rewrite Hg.
Qed.



(** ** Signatures, and the claims that rest on them *)

Section Signed.

Context {laws : NodeCryptoLaws crypto}.

Lemma step_signed e st : well_signed st -> well_signed (step st e).
Proof.
  intros Hst. pose proof Hst as [Hp Hs].
  destruct e as [body now entropy|rid|wallet clock|j o].
  - rewrite step_PostWitness. destruct (as_request body) as [request|]; [|done].
    rewrite witnessDecision_eq. split; simpl; [|done].
    apply entries_set; [done|]. unfold signed; simpl. apply sign_then_verify.
  - rewrite step_GetVerify.
    destruct (verifyReceipt_stores rid st) as (Ep & Es & Ef).
    split; rewrite ?Ep, ?Es; done.
  - rewrite step_Interval.
    destruct (on_interval_cases wallet clock st) as [->|[(rs & _ & ->)|(m & _ & ->)]];
      [done| |done].
    by apply apply_results_signed.
  - rewrite step_LedgerReturns, settleReceipts_resume_eq.
    destruct (in_flight st !! j); [|done].
    by apply apply_results_signed.
Qed.

Lemma run_signed es : well_signed (run es initial).
Proof.
  induction es as [|e es IH] using rev_ind.
  - split; simpl; intros ??; by intros ?%elem_of_nil.
  - rewrite run_snoc. by apply step_signed.
Qed.

Lemma substring_0_length n : forall s,
  (n <= String.length s)%nat -> String.length (substring 0 n s) = n.
Proof.
  induction n as [|n IH]; intros [|a s]; simpl; try done; try lia.
  intros H. f_equal. apply IH. lia.
Qed.

Lemma substring_0_forallb (P : ascii -> bool) n : forall s,
  forallb P (list_ascii_of_string s) = true ->
  forallb P (list_ascii_of_string (substring 0 n s)) = true.
Proof.
  induction n as [|n IH]; intros [|a s]; simpl; try done.
  intros [Ha Hs]%andb_prop. rewrite Ha. simpl. by apply IH.
Qed.

(** C4. For a decision record whose context, logic and action are present
    and truthy (a string that is not empty, or any other truthy value),
    [POST /witness] answers with a receipt whose signature verifies against
    its hash, and whose [receipt_id] is [generateReceiptId] of the hash
    alone: the text "vts_" followed by the first 16 characters of the hash,
    which are hex digits.  The hash is the digest of the payload made of the
    record and the time, and the receipt is stored pending with the record. *)
Theorem witness_returns_signed_receipt body c l a now entropy st :
  member "context" body = Some c -> member "logic" body = Some l ->
  member "action" body = Some a ->
  ToBoolean c = true -> ToBoolean l = true -> ToBoolean a = true ->
  let request := {| context := c; logic := l; action := a;
                    agent_id := member "agent_id" body |} in
  exists receipt,
    (post_witness body now entropy st).1 = WitnessResponse 200 true receipt /\
    ecdsa_verify (hash receipt) (signature receipt) = true /\
    receipt_id receipt = generateReceiptId (hash receipt) /\
    receipt_id receipt = "vts_" +:+ substring 0 16 (hash receipt) /\
    String.length (substring 0 16 (hash receipt)) = 16%nat /\
    forallb is_hex (list_ascii_of_string (substring 0 16 (hash receipt))) = true /\
    hash receipt = sha256_hex (hashed_payload request now) /\
    timestamp_ms receipt = now /\ status receipt = Pending /\
    arweave_tx receipt = None /\
    map_get (receipt_id receipt) (pendingReceipts (post_witness body now entropy st).2)
      = Some {| base := receipt; full_payload := request |}.
Proof.
  intros Hc Hl Ha Tc Tl Ta request.
  assert (as_request body = Some request) as E.
  { unfold as_request. by rewrite Hc, Hl, Ha, Tc, Tl, Ta. }
  exists (witnessed request now entropy).
  assert (post_witness body now entropy st
          = (WitnessResponse 200 true (witnessed request now entropy),
             (witnessDecision now entropy request st).2)) as ->.
  { unfold post_witness. rewrite E. unfold bind. rewrite witnessDecision_eq.
    by destruct body. }
  rewrite witnessDecision_eq. simpl.
  split_and!; try done.
  - apply sign_then_verify.
  - apply substring_0_length. rewrite sha256_hex_length. lia.
  - apply substring_0_forallb, sha256_hex_digits.
  - apply map_get_set_eq.
Qed.

(** C5, as the code has it.  When the ledger acknowledges the batch of a
    suspended settlement with a message id, every receipt of the batch is
    afterwards in the settled store and not in the pending store, with status
    [Settled] and a transaction id.  For a receipt that was still pending
    when the acknowledgement arrived, the settled record is the pending one
    promoted with the acknowledged message id; a receipt settled in the
    meantime by another execution keeps the settled record it had, and so the
    id it was given then.  [verifyReceipt] on it answers [valid = true] with
    that settled record. *)
Theorem acknowledged_batch_is_settled es k batch messageId :
  let st := run es initial in
  in_flight st !! k = Some batch ->
  let st' := step st (LedgerReturns k (Acknowledged messageId)) in
  forall r, r ∈ batch ->
    exists x tx,
      map_get (receipt_id (base r)) (settledReceipts st') = Some x /\
      map_get (receipt_id (base r)) (pendingReceipts st') = None /\
      status x = Settled /\ arweave_tx x = Some tx /\
      (has_pending st (receipt_id (base r)) -> tx = messageId) /\
      match map_get (receipt_id (base r)) (pendingReceipts st) with
      | Some p => x = promoted p (Some messageId)
      | None => map_get (receipt_id (base r)) (settledReceipts st) = Some x
      end /\
      (verifyReceipt (receipt_id (base r)) st').1 =
        {| valid := true; receipt := Some x;
           message := "Receipt verified and settled" |}.
Proof.
  intros st Hk st' r Hr.
  pose proof (run_wf es) as [Hp Hs Hf]. pose proof (run_signed es) as [Sp Ss].
  fold st in Hp, Hs, Hf, Sp, Ss.
  assert (Hst' : st' = (apply_results (all_settled messageId batch) (resume k st).2).2).
  { unfold st'. by rewrite step_LedgerReturns, settleReceipts_resume_eq, Hk. }
  assert (Hknown : known st (receipt_id (base r))).
  { eapply Hf; [|done]. by eapply list_elem_of_lookup_2. }
  assert (Hverify : forall x,
            map_get (receipt_id (base r)) (settledReceipts st') = Some x -> signed x ->
            (verifyReceipt (receipt_id (base r)) st').1 =
              {| valid := true; receipt := Some x;
                 message := "Receipt verified and settled" |}).
  { intros x Hx Hsig. rewrite (verifyReceipt_settled _ _ x Hx).
    unfold signed in Hsig. by rewrite Hsig. }
  destruct (map_get (receipt_id (base r)) (pendingReceipts st)) as [p|] eqn:Hpend.
  - destruct (apply_results_settles (all_settled messageId batch)
                (receipt_id (base r)) p (resume k st).2)
      as (Hnone & res & Hin & _ & Hget).
    + done.
    + apply Forall_forall. by intros res (r' & -> & _)%list_elem_of_fmap.
    + eexists. split; [apply list_elem_of_fmap; by exists r|done].
    + rewrite <- Hst' in Hnone, Hget.
      apply list_elem_of_fmap in Hin as (r' & -> & _). simpl in Hget.
      exists (promoted p (Some messageId)), messageId.
      split_and!; try done.
      apply Hverify; [done|]. exact (Sp _ _ (map_get_elem _ _ _ Hpend)).
  - destruct Hknown as [[p Hp']|[x Hx]]; [unfold has_pending in *; congruence|].
    destruct (apply_results_not_pending (all_settled messageId batch)
                (receipt_id (base r)) (resume k st).2 Hpend) as [Hnone Hsame].
    rewrite <- Hst' in Hnone, Hsame. simpl in Hsame. rewrite Hx in Hsame.
    destruct (Hs _ _ (map_get_elem _ _ _ Hx)) as (_ & Hstat & tx & Htx).
    exists x, tx. split_and!; try done.
    + intros [p Hp']. unfold has_pending in *. congruence.
    + apply Hverify; [done|]. exact (Ss _ _ (map_get_elem _ _ _ Hx)).
Qed.

End Signed.

End Server.

End HttpFacts.

(** * Properties of the ledger client *)

Module SettlerFacts.

Import Settler.

(** ** The digest of the context *)

Lemma to_int32_range z : (- 2 ^ 31 <= to_int32 z < 2 ^ 31)%Z.
Proof.
  unfold to_int32.
  pose proof (Z.mod_pos_bound (z + 2 ^ 31) (2 ^ 32) ltac:(lia)). lia.
Qed.

Lemma hash_loop_range str : forall h,
  (- 2 ^ 31 <= h < 2 ^ 31)%Z ->
  (- 2 ^ 31 <= foldl hash_step h str < 2 ^ 31)%Z.
Proof.
  induction str as [|c str IH]; intros h Hh; [done|].
  cbn [foldl]. apply IH. unfold hash_step. apply to_int32_range.
Qed.

Lemma hex_digits_length fuel : forall n acc k,
  (n < 16 ^ N.of_nat (S k))%N ->
  (String.length (hex_digits fuel n acc) <= S k + String.length acc)%nat.
Proof.
  induction fuel as [|fuel IH]; intros n acc k Hn; simpl; [lia|].
  destruct (n / 16 =? 0)%N eqn:E; simpl; [lia|].
  apply N.eqb_neq in E.
  destruct k as [|k].
  - exfalso. apply E. apply N.div_small. simpl in Hn. lia.
  - etrans; [apply (IH _ _ k)|simpl; lia].
    apply N.Div0.div_lt_upper_bound.
    replace (N.of_nat (S (S k))) with (N.succ (N.of_nat (S k))) in Hn by lia.
    by rewrite N.pow_succ_r' in Hn.
Qed.

(** The digest is a 32-bit number written with at most eight hex digits. *)
Lemma hashString_length str : (String.length (hashString str) <= 8)%nat.
Proof.
  unfold hashString, toString16.
  pose proof (hash_loop_range str 0%Z ltac:(lia)) as H.
  etrans; [apply (hex_digits_length _ _ _ 7)|simpl; lia].
  change (16 ^ N.of_nat 8)%N with 4294967296%N. lia.
Qed.

Section Client.

Context {engine : JsEngine}.
Variable VERITAS_PROCESS_ID : option string.

Local Abbreviation settleToArweave_start :=
  (Settler.settleToArweave_start VERITAS_PROCESS_ID).

(** The digest is a 32-bit number written with at most eight hex digits,
    whatever value is hashed. *)
Lemma hashString_of_length v digest :
  hashString_of v = Some digest -> (String.length digest <= 8)%nat.
Proof.
  unfold hashString_of. intros H.
  assert (exists str, digest = hashString str) as [str ->];
    [|apply hashString_length].
  repeat case_match; simplify_eq; by eexists.
Qed.

Lemma summary_Some r e :
  summary r = Some e <->
  exists digest prefix,
    hashString_of (context (full_payload r)) = Some digest /\
    substring_0_200 (logic (full_payload r)) = Some prefix /\
    e = {| sm_receipt_id := receipt_id (base r);
           sm_hash := hash (base r);
           sm_signature := signature (base r);
           sm_timestamp_ms := timestamp_ms (base r);
           context_hash := digest;
           logic_summary := prefix;
           sm_action := action (full_payload r);
           sm_agent_id := or_null (agent_id (full_payload r)) |}.
Proof.
  unfold summary.
  destruct (hashString_of _) as [digest|], (substring_0_200 _) as [prefix|]; split.
  all: try (by intros [=]).
  all: try (by intros (? & ? & [=] & _)).
  all: try (by intros (? & ? & _ & [=] & _)).
  - intros [= <-]. by exists digest, prefix.
  - by intros (? & ? & [= <-] & [= <-] & ->).
Qed.

Lemma settleToArweave_start_sent processId wallet clock rs m :
  settleToArweave_start processId wallet clock rs = Sent m ->
  exists target w,
    wallet = Some w /\
    mapM summary rs = Some (receipts (data m)) /\
    m = {| process := target;
           signer := w;
           tags := [("Action", "StoreReceipts"); ("Veritas-Version", "0.1.0");
                    ("Receipt-Count", pretty (length rs))];
           data := {| type := "VeritasReceiptBatch";
                      count := length rs;
                      receipts := receipts (data m);
                      settled_at := clock 0%nat |} |} /\
    forall rs' entries,
      mapM summary rs' = Some entries ->
      settleToArweave_start processId wallet clock rs' =
        Sent {| process := target;
                signer := w;
                tags := [("Action", "StoreReceipts"); ("Veritas-Version", "0.1.0");
                         ("Receipt-Count", pretty (length rs'))];
                data := {| type := "VeritasReceiptBatch";
                           count := length rs';
                           receipts := entries;
                           settled_at := clock 0%nat |} |}.
Proof.
  unfold Settler.settleToArweave_start.
  destruct (match truthy_str processId with
            | Some p => Some p
            | None => DEFAULT_PROCESS_ID VERITAS_PROCESS_ID
            end) as [target|]; [|done].
  destruct wallet as [w|]; [|done].
  destruct (mapM summary rs) as [entries|] eqn:E; [|done].
  intros [= <-]. exists target, w. split_and!; try done.
  intros rs' entries' ->. done.
Qed.

(** C8, as the code has it.  A message is sent only when the entry of every
    receipt of the batch can be built, and then the entry of a receipt holds:
    the receipt's own id, hash, signature and timestamp; the digest
    [hashString] of its context, at most eight hex digits; the first 200 code
    units of its logic, a string, which is the whole logic when it has no
    more than 200; its action in full; and its agent id or null.  The message
    depends on the batch through these entries only, and the entry of a
    receipt is determined by those eight values: two receipts that agree on
    them, whatever their contexts and the rest of their logic, produce the
    same entry. *)
Theorem ledger_payload_discloses_digest_and_prefix processId wallet clock rs m :
  settleToArweave_start processId wallet clock rs = Sent m ->
  Forall2 (fun r e =>
     summary r = Some e /\
     sm_receipt_id e = receipt_id (base r) /\ sm_hash e = hash (base r) /\
     sm_signature e = signature (base r) /\
     sm_timestamp_ms e = timestamp_ms (base r) /\
     hashString_of (context (full_payload r)) = Some (context_hash e) /\
     (forall c, context (full_payload r) = VString c -> context_hash e = hashString c) /\
     (String.length (context_hash e) <= 8)%nat /\
     (exists l,
        logic (full_payload r) = VString l /\
        logic_summary e = take 200 l /\
        logic_summary e `prefix_of` l /\
        (length (logic_summary e) <= 200)%nat /\
        ((length l <= 200)%nat -> logic_summary e = l)) /\
     sm_action e = action (full_payload r) /\
     sm_agent_id e = or_null (agent_id (full_payload r)))
    rs (receipts (data m)) /\
  (forall rs', mapM summary rs' = mapM summary rs ->
     settleToArweave_start processId wallet clock rs' = Sent m) /\
  (forall r r' e,
     summary r = Some e ->
     receipt_id (base r') = receipt_id (base r) ->
     hash (base r') = hash (base r) ->
     signature (base r') = signature (base r) ->
     timestamp_ms (base r') = timestamp_ms (base r) ->
     hashString_of (context (full_payload r'))
       = hashString_of (context (full_payload r)) ->
     substring_0_200 (logic (full_payload r'))
       = substring_0_200 (logic (full_payload r)) ->
     action (full_payload r') = action (full_payload r) ->
     or_null (agent_id (full_payload r')) = or_null (agent_id (full_payload r)) ->
     summary r' = Some e).
Proof.
  intros Hsent.
  destruct (settleToArweave_start_sent _ _ _ _ _ Hsent)
    as (target & w & -> & Hentries & Hm & Hany).
  split_and!.
  - apply mapM_Some in Hentries.
    eapply Forall2_impl; [exact Hentries|]. intros r e He.
    pose proof He as (digest & prefix & Hd & Hp & ->)%summary_Some. simpl.
    split_and!; try done.
    + intros c Hc. rewrite Hc in Hd. simpl in Hd. by injection Hd as <-.
    + by eapply hashString_of_length.
    + unfold substring_0_200 in Hp.
      destruct (logic (full_payload r)) as [| | |l| |]; try done.
      injection Hp as <-. exists l. split_and!; try done.
      * apply prefix_take.
      * rewrite length_take. lia.
      * intros H. by apply take_ge.
  - intros rs' Hrs'. rewrite Hentries in Hrs'.
    rewrite (Hany rs' _ Hrs'). rewrite Hm at 2.
    assert (length rs' = length rs) as ->; [|done].
    by rewrite (length_mapM _ _ _ Hrs'), (length_mapM _ _ _ Hentries).
  - intros r r' e (digest & prefix & Hd & Hp & ->)%summary_Some Hi Hh Hs Ht Hc Hl Ha Hg.
    apply summary_Some. exists digest, prefix.
    by rewrite Hc, Hl, Hi, Hh, Hs, Ht, Ha, Hg.
Qed.

End Client.

End SettlerFacts.

(** * The server and the process on examples *)

Module Scenarios.

Import Settler Http HttpFacts SettlerFacts Demo.

Lemma is_hex_hex_digit n : is_hex (hex_digit n) = true.
Proof.
  destruct n as [|p]; [done|].
  do 4 (try destruct p as [p|p|]); done.
Qed.

#[export] Instance demo_laws : NodeCryptoLaws demo_crypto.
Proof.
  split.
  - intros payload. change (sha256_hex payload) with (checksum payload).
    unfold checksum, hex8, hex4. reflexivity.
  - intros payload. change (sha256_hex payload) with (checksum payload).
    cbv beta iota zeta delta
      [checksum hex8 hex4 String.append list_ascii_of_string forallb].
    by rewrite !is_hex_hex_digit.
  - intros entropy h.
    change (demo_verify h (demo_sign entropy h) = true).
    unfold demo_verify, demo_sign.
    generalize (pretty entropy). intros tail.
    induction h as [|a h IH]; simpl.
    + by destruct tail.
    + destruct (ascii_dec a a); [done|congruence].
Qed.

(** ** Values the embedded functions compute *)

Example hashString_abc : hashString (js "abc") = "17862".
Proof. reflexivity. Qed.

Example hashString_empty : hashString [] = "0".
Proof. reflexivity. Qed.

Example hashString_wraps :
  hashString (js "The quick brown fox jumps over the lazy dog") = "245322ad".
Proof. by vm_compute. Qed.

Example toString16_of_two_to_31 : toString16 2147483648 = "80000000".
Proof. by vm_compute. Qed.

Example hashed_payload_of_request1 :
  hashed_payload request1 17
    = js ("{" +:+ dq "context" +:+ ":" +:+ dq "c" +:+ ","
              +:+ dq "logic" +:+ ":" +:+ dq "l" +:+ ","
              +:+ dq "action" +:+ ":" +:+ dq "a" +:+ ","
              +:+ dq "agent_id" +:+ ":null,"
              +:+ dq "timestamp_ms" +:+ ":17}").
Proof. by vm_compute. Qed.

Example quote_escapes :
  quote [10; 34; 92; 1; 955]%N
    = ([34%N] ++ js "\n\" ++ [34%N] ++ js "\\\u0001" ++ [955; 34]%N)%list.
Proof. by vm_compute. Qed.

Example quote_surrogates :
  quote [55357; 56832]%N = [34; 55357; 56832; 34]%N /\
  quote [55357]%N = ([34%N] ++ js "\ud83d" ++ [34%N])%list.
Proof. by vm_compute. Qed.

Example generateReceiptId_takes_16 :
  generateReceiptId "0123456789abcdef0123456789abcdef" = "vts_0123456789abcdef".
Proof. reflexivity. Qed.

(** ** Runs on which the claims, as the specification words them, fail *)

(** C1 as worded fails.  With a process id configured and no wallet, the
    tick leaves the state as it is: the receipt is still in the pending
    store, with status [Pending], it is not in the settled store, and it is
    the batch of the next tick.  With no process id configured, the tick
    gives the receipt status [Settled].  In neither case is it [Failed]. *)
Lemma missing_wallet_leaves_receipt_pending :
  let st := run (Some "proc") [PostWitness body1 t0 7] initial in
  let st' := run (Some "proc") missing_wallet_run initial in
  let st'' := run None missing_wallet_run initial in
  st' = st /\
  map_get id1 (pendingReceipts st') = Some receipt1 /\
  status (base receipt1) = Pending /\
  map_get id1 (settledReceipts st') = None /\
  map_values (pendingReceipts st') = [receipt1] /\
  (status <$> map_get id1 (settledReceipts st'')) = Some Settled.
Proof. vm_compute. by repeat split. Qed.

(** C2 as worded fails.  After the timer has fired twice while the ledger
    has not answered, two executions of the settlement are suspended at the
    same time, and the first receipt is in the batch of both. *)
Lemma two_settlements_in_flight :
  in_flight (run (Some "proc") overlap_run initial)
    = [[receipt1]; [receipt1; receipt2]].
Proof. by vm_compute. Qed.

(** C3 as worded fails.  The request that was witnessed and settled is
    witnessed again in the same millisecond: its receipt id is then in the
    pending store and in the settled store. *)
Lemma rewitnessed_receipt_is_in_both_stores :
  let st := run None rewitness_run initial in
  created rewitness_run = [id1; id1] /\
  has_pending st id1 /\ has_settled st id1.
Proof.
  split_and!.
  - by vm_compute.
  - eexists. by vm_compute.
  - eexists. by vm_compute.
Qed.

(** C5 as worded fails.  The second batch holds both receipts and is
    acknowledged with message id "M2", but the first receipt had been
    settled by the first execution and keeps "M1": the receipts of the
    acknowledged batch do not share one transaction id. *)
Lemma overlapping_batch_keeps_earlier_transaction :
  let st := step (Some "proc") (run (Some "proc") overlap_run initial)
              (LedgerReturns 0 (Acknowledged "M1")) in
  let st' := step (Some "proc") st (LedgerReturns 0 (Acknowledged "M2")) in
  in_flight st = [[receipt1; receipt2]] /\
  (arweave_tx <$> map_get id1 (settledReceipts st')) = Some (Some "M1") /\
  (arweave_tx <$> map_get id2 (settledReceipts st')) = Some (Some "M2").
Proof. vm_compute. by repeat split. Qed.


(** C8 as worded fails.  The logic of the receipt has one code unit, and the
    entry sent to the ledger holds it whole. *)
Lemma short_logic_is_forwarded_whole :
  exists m,
    settleToArweave_start (Some "proc") None (Some wallet0) (clock_at t0) [receipt1]
      = Sent m /\
    (VString <$> (logic_summary <$> receipts (data m)))
      = [logic (full_payload receipt1)].
Proof. eexists. split; [reflexivity|]. by vm_compute. Qed.

(** A decision whose logic is the number 5 is witnessed like any other.  On
    a server with a process id and a wallet, building the batch then throws
    at every tick: nothing is sent, no settlement is in flight, and the
    receipts witnessed before and after it stay pending as well. *)
Example number_logic_is_never_submitted :
  let st := run (Some "proc") [PostWitness body1 t0 7; PostWitness body5 t0 8] initial in
  map_size (pendingReceipts st) = 2%nat /\
  settleToArweave_start (Some "proc") None (Some wallet0) (clock_at (t0 + 5))
    (map_values (pendingReceipts st)) = Rejected /\
  step (Some "proc") st (Interval (Some wallet0) (clock_at (t0 + 5))) = st.
Proof. by vm_compute. Qed.

(** ** The theorems on examples *)

Lemma configuration_failure_outcomes_witness :
  on_interval (Some "proc") None (clock_at (t0 + 5))
      (run (Some "proc") [PostWitness body1 t0 7] initial)
    = (tt, run (Some "proc") [PostWitness body1 t0 7] initial) /\
  pendingReceipts
      (on_interval None None (clock_at t0) (run None [PostWitness body1 t0 7] initial)).2
    = [].
Proof.
  split.
  - exact (proj2 (proj1 (configuration_failure_outcomes (Some "proc")
                           [PostWitness body1 t0 7] None (clock_at (t0 + 5)))
                    "proc" eq_refl)).
  - exact (proj1 (proj2 (proj1 (proj2 (configuration_failure_outcomes None
                                         [PostWitness body1 t0 7] None (clock_at t0)))
                           eq_refl))).
Defined.

Lemma interval_starts_a_settlement_witness :
  let st := run (Some "proc")
              [PostWitness body1 t0 7; Interval (Some wallet0) (clock_at (t0 + 5))]
              initial in
  in_flight (on_interval (Some "proc") (Some wallet0) (clock_at (t0 + 10005)) st).2
    = (in_flight st ++ [map_values (pendingReceipts st)])%list.
Proof.
  intros st.
  refine (proj1 (proj1 (proj1 (proj2 (interval_starts_a_settlement_whatever_is_in_flight
                                        (Some "proc") (Some wallet0)
                                        (clock_at (t0 + 10005)) st))
                          _ "proc" wallet0 eq_refl eq_refl) _)).
  - by vm_compute.
  - repeat constructor. by eexists.
Defined.

Lemma created_receipts_stay_in_a_store_witness :
  let es := [PostWitness body1 t0 7; Interval None (clock_at t0);
             PostWitness body2 (t0 + 6000) 8] in
  let st := run None es initial in
  (has_pending st id2 \/ has_settled st id2) /\
  ~ (has_pending st id1 /\ has_settled st id1).
Proof.
  intros es st.
  destruct (created_receipts_stay_in_a_store None es) as [Hknown Hapart].
  split.
  - apply Hknown. by vm_compute; repeat constructor.
  - apply Hapart. simpl. split_and!; try done.
    + intros id Hid [x Hx]. by vm_compute in Hx.
    + intros id Hid. by apply elem_of_nil in Hid.
    + intros id Hid%list_elem_of_singleton [x Hx]. subst id. by vm_compute in Hx.
Defined.

Lemma witness_returns_signed_receipt_witness :
  exists receipt,
    (post_witness body1 t0 7 initial).1 = WitnessResponse 200 true receipt /\
    ecdsa_verify (hash receipt) (signature receipt) = true /\
    receipt_id receipt = "vts_" +:+ substring 0 16 (hash receipt).
Proof.
  destruct (witness_returns_signed_receipt body1 (VString (js "c")) (VString (js "l"))
              (VString (js "a")) t0 7 initial)
    as (receipt & H1 & H2 & _ & H4 & _); [done..|].
  by exists receipt.
Defined.

Lemma acknowledged_batch_is_settled_witness :
  let st := run (Some "proc")
              [PostWitness body1 t0 7; Interval (Some wallet0) (clock_at (t0 + 5))]
              initial in
  let st' := step (Some "proc") st (LedgerReturns 0 (Acknowledged "M1")) in
  exists x,
    map_get id1 (settledReceipts st') = Some x /\
    status x = Settled /\ arweave_tx x = Some "M1" /\
    (verifyReceipt id1 st').1 =
      {| valid := true; receipt := Some x; message := "Receipt verified and settled" |}.
Proof.
  intros st st'.
  destruct (acknowledged_batch_is_settled (Some "proc")
              [PostWitness body1 t0 7; Interval (Some wallet0) (clock_at (t0 + 5))]
              0 [receipt1] "M1" ltac:(by vm_compute) receipt1 ltac:(by left))
    as (x & tx & Hx & _ & Hs & Htx & Hm & _ & Hv).
  exists x. split; [exact Hx|]. split; [exact Hs|]. split; [|exact Hv].
  rewrite Htx. f_equal. apply Hm. eexists. vm_compute. reflexivity.
Defined.


Lemma ledger_payload_discloses_digest_and_prefix_witness :
  exists m e,
    settleToArweave_start (Some "proc") None (Some wallet0) (clock_at t0) [receipt2]
      = Sent m /\
    receipts (data m) = [e] /\
    logic_summary e = js "within budget" /\
    context_hash e = hashString (js "price 99").
Proof.
  eexists. eexists. split; [reflexivity|].
  pose proof (proj1 (ledger_payload_discloses_digest_and_prefix (Some "proc") None
                       (Some wallet0) (clock_at t0) [receipt2] _ eq_refl)) as Hall.
  apply Forall2_cons_1 in Hall as [(_ & _ & _ & _ & _ & _ & Hc & _ & Hl & _) _].
  destruct Hl as (l & Hl & Hs & _). injection Hl as <-.
  split; [reflexivity|]. split; [exact Hs|]. exact (Hc _ eq_refl).
Defined.

(** A run of the ledger process: the batch that names one receipt twice,
    and its retry. *)
Lemma receipt_count_equals_stored_ids_witness :
  let st := Ledger.run "process" LedgerDemo.sample_decode (fun _ => None)
              [LedgerDemo.sample_msg "m1"; LedgerDemo.sample_msg "m2"]
              (Ledger.initial "process" (Some "owner")) in
  Ledger.ReceiptCount st = Z.of_nat (size (Ledger.Receipts st)) /\
  Ledger.ReceiptCount st = 2%Z.
Proof.
  intros st. split; [|by vm_compute].
  exact (proj1 (proj2 (proj2 (LedgerFacts.receipt_count_equals_stored_ids "process"
                                (Some "owner") LedgerDemo.sample_decode (fun _ => None)))) _).
Defined.

End Scenarios.

(** * More about the ledger process *)

Module LedgerMore.

Import Ledger LedgerDemo LedgerFacts.

Section Process.

Variable ao_id : string.
Variable json_decode : string -> option Decoding.
Variable tonumber : string -> option lua_number.

Local Abbreviation store_loop msg := (foldl (store_one msg)).
Local Abbreviation handle := (Ledger.handle ao_id json_decode tonumber).
Local Abbreviation run := (Ledger.run ao_id json_decode tonumber).

Lemma run_cons m msgs st : run (m :: msgs) st = run msgs (handle m st).1.
Proof. reflexivity. Qed.

(** *** Who can change the state *)

(** A message that is not from the owner changes nothing, whatever its
    action; neither does a sequence of such messages. *)
Theorem only_the_owner_changes_the_state :
  (forall msg st, is_owner st msg = false -> (handle msg st).1 = st) /\
  (forall msgs st,
     (forall m, m ∈ msgs -> is_owner st m = false) -> run msgs st = st).
Proof.
  assert (forall msg st, is_owner st msg = false -> (handle msg st).1 = st) as Hone.
  { intros msg st Ho. unfold Ledger.handle.
    unfold StoreReceipts, Freeze, Unfreeze, GetReceipt, ListReceipts,
      VerifyReceipt, GetStats. rewrite Ho. simpl.
    repeat destruct (hasMatchingTag _ msg); try done.
    all: by repeat case_match. }
  split; [done|].
  induction msgs as [|m msgs IH]; intros st H; [done|].
  rewrite run_cons. rewrite Hone by (apply H; by left).
  apply IH. intros m' Hm'. apply H. by right.
Qed.

Lemma handle_flags msg st :
  Owner (handle msg st).1 = Owner st /\ Version (handle msg st).1 = Version st.
Proof.
  unfold Ledger.handle.
  unfold StoreReceipts, Freeze, Unfreeze, GetReceipt, ListReceipts,
    VerifyReceipt, GetStats.
  repeat destruct (hasMatchingTag _ msg); try done.
  - destruct (StoreReceipts_state json_decode msg st) as [H|[rs H]];
      unfold StoreReceipts in H; rewrite H; [done|].
    by destruct (store_loop_flags msg rs (st, 0%Z)) as (HO & _ & HV).
  - by destruct (negb _).
  - by destruct (negb _).
  - by repeat case_match.
  - by repeat case_match.
Qed.

(** No message changes the owner or the version, so that the owner named
    when the process was spawned is the owner for good. *)
Theorem the_owner_is_fixed msgs st :
  Owner (run msgs st) = Owner st /\ Version (run msgs st) = Version st.
Proof.
  revert st. induction msgs as [|m msgs IH]; intros st; [done|].
  rewrite run_cons. destruct (IH (handle m st).1) as [-> ->].
  apply handle_flags.
Qed.

Lemma is_owner_same st st' msg :
  Owner st' = Owner st -> is_owner st' msg = is_owner st msg.
Proof. unfold is_owner. by intros ->. Qed.

(** While the process is frozen, and until the owner sends [Unfreeze], no
    message adds a receipt: the table and the counter stay as they are and
    the process stays frozen. *)
Theorem frozen_process_stores_nothing msgs st :
  Frozen st = true ->
  (forall m, m ∈ msgs ->
     ~ (is_owner st m = true /\ hasMatchingTag "Unfreeze" m = true)) ->
  Receipts (run msgs st) = Receipts st /\
  ReceiptCount (run msgs st) = ReceiptCount st /\
  Frozen (run msgs st) = true.
Proof.
  revert st. induction msgs as [|m msgs IH]; intros st HF H; [done|].
  rewrite run_cons.
  assert (Receipts (handle m st).1 = Receipts st /\
          ReceiptCount (handle m st).1 = ReceiptCount st /\
          Frozen (handle m st).1 = true) as (HR & HC & HF').
  { assert (~ (is_owner st m = true /\ hasMatchingTag "Unfreeze" m = true)) as Hm
      by (apply H; by left).
    unfold Ledger.handle.
    unfold StoreReceipts, Freeze, Unfreeze, GetReceipt, ListReceipts,
      VerifyReceipt, GetStats. rewrite HF.
    destruct (hasMatchingTag "StoreReceipts" m); [done|].
    destruct (hasMatchingTag "Freeze" m); [by destruct (negb _)|].
    destruct (hasMatchingTag "Unfreeze" m).
    { destruct (is_owner st m); [by destruct Hm|done]. }
    repeat destruct (hasMatchingTag _ m).
    all: repeat case_match; simpl; by split_and!. }
  destruct (IH (handle m st).1) as (-> & -> & ->); [done| |done].
  intros m' Hm'. rewrite (is_owner_same st) by apply handle_flags.
  apply H. by right.
Qed.

(** *** Replies *)

(** A message gets at most one reply, addressed to its sender; a message
    without a sender gets none. *)
Theorem replies_go_to_the_sender msg st :
  (length (handle msg st).2 <= 1)%nat /\
  (forall r, r ∈ (handle msg st).2 -> From msg = Some (Target r)) /\
  (From msg = None -> (handle msg st).2 = []).
Proof.
  assert (exists l, (handle msg st).2 = l /\
            (l = [] \/ exists act data, l = send_reply msg act data))
    as (l & -> & Hl).
  { eexists. split; [done|]. unfold Ledger.handle.
    unfold StoreReceipts, Freeze, Unfreeze, GetReceipt, ListReceipts,
      VerifyReceipt, GetStats.
    repeat destruct (hasMatchingTag _ msg); try by left.
    all: repeat case_match; simpl; first [by left|right; by eauto]. }
  destruct Hl as [->|(act & data & ->)].
  - split_and!; [simpl; lia| |done]. by intros r ?%elem_of_nil.
  - unfold send_reply. destruct (From msg) as [from|].
    + split_and!; [simpl; lia| |done].
      by intros r ->%list_elem_of_singleton.
    + split_and!; [simpl; lia| |done]. by intros r ?%elem_of_nil.
Qed.

(** *** Storing and reading back *)




Lemma store_one_growth msg acc r :
  ((store_one msg acc r).2 - acc.2
   = Z.of_nat (size (Receipts (store_one msg acc r).1)) - Z.of_nat (size (Receipts acc.1)))%Z /\
  (ReceiptCount (store_one msg acc r).1 - ReceiptCount acc.1
   = (store_one msg acc r).2 - acc.2)%Z.
Proof.
  destruct acc as [st n]; unfold store_one; simpl.
  destruct (receipt_id r) as [rid|]; simpl; [|lia].
  destruct (Receipts st !! rid) eqn:E; simpl; [lia|].
  rewrite map_size_insert_None by done. lia.
Qed.

Lemma store_loop_growth msg rs : forall acc,
  ((store_loop msg acc rs).2 - acc.2
   = Z.of_nat (size (Receipts (store_loop msg acc rs).1)) - Z.of_nat (size (Receipts acc.1)))%Z /\
  (ReceiptCount (store_loop msg acc rs).1 - ReceiptCount acc.1
   = (store_loop msg acc rs).2 - acc.2)%Z.
Proof.
  induction rs as [|r rs IH]; intros acc; cbn [foldl]; [lia|].
  destruct (IH (store_one msg acc r)) as [H1 H2].
  destruct (store_one_growth msg acc r) as [H3 H4]. lia.
Qed.

Lemma store_loop_bounds msg rs : forall acc,
  (acc.2 <= (store_loop msg acc rs).2 <= acc.2 + Z.of_nat (length rs))%Z.
Proof.
  induction rs as [|r rs IH]; intros acc; cbn [foldl length]; [lia|].
  assert (acc.2 <= (store_one msg acc r).2 <= acc.2 + 1)%Z as Hstep.
  { destruct acc as [st n]. unfold store_one. repeat case_match; simpl; lia. }
  specialize (IH (store_one msg acc r)). lia.
Qed.

(** The [stored_count] of the reply to an accepted batch is the number of
    records the batch added to the table, and [total_count] is the old
    counter plus that number: ids that were already stored, ids repeated in
    the batch and receipts without an id are not counted. *)
Theorem stored_count_is_the_growth msg st data rs :
  Frozen st = false -> is_owner st msg = true ->
  parse_data json_decode msg = Some (Indexable data) ->
  d_receipts data = Some (Items (Table <$> rs)) ->
  let st1 := (StoreReceipts json_decode msg st).1 in
  let stored_count :=
    (Z.of_nat (size (Receipts st1)) - Z.of_nat (size (Receipts st)))%Z in
  (StoreReceipts json_decode msg st).2 =
    send_reply msg "ReceiptsStored"
      (RReceiptsStored stored_count (ReceiptCount st + stored_count)) /\
  (0 <= stored_count <= Z.of_nat (length rs))%Z.
Proof.
  intros HF HO HP HR st1 stored_count. unfold stored_count, st1.
  rewrite (StoreReceipts_accepted json_decode msg st data rs HF HO HP HR).
  cbn [fst snd].
  destruct (store_loop_growth msg rs (st, 0%Z)) as [H1 H2]. simpl in H1, H2.
  split.
  - do 2 f_equal; lia.
  - pose proof (store_loop_bounds msg rs (st, 0%Z)) as Hb. simpl in Hb. lia.
Qed.

Lemma list_loop_spec limit entries : forall count,
  let out := list_loop limit count entries in
  out = (fun kv : string * StoredReceipt =>
           (kv.1, s_timestamp_ms kv.2, stored_at kv.2))
          <$> take (length out) entries /\
  (forall k, (k < length out)%nat -> reached (count + Z.of_nat k) limit = false) /\
  (length out = length entries \/
   reached (count + Z.of_nat (length out)) limit = true).
Proof.
  induction entries as [|[rid x] entries IH]; intros count; cbn [list_loop].
  - split_and!; [done| |by left]. intros k Hk. simpl in Hk. lia.
  - destruct (reached count limit) eqn:E.
    + split_and!; [done| |right]. { intros k Hk. simpl in Hk. lia. }
      simpl. by rewrite Z.add_0_r.
    + destruct (IH (count + 1)%Z) as (Hout & Hbelow & Hend).
      cbn zeta in *. cbn [length take fmap list_fmap]. split_and!.
      * f_equal. exact Hout.
      * intros [|k] Hk; [by rewrite Z.add_0_r|].
        replace (count + Z.of_nat (S k))%Z with (count + 1 + Z.of_nat k)%Z by lia.
        apply Hbelow. lia.
      * destruct Hend as [Hend|Hend]; [left; by rewrite Hend|right].
        by replace (count + Z.of_nat (S (length (list_loop limit (count + 1) entries))))%Z
          with (count + 1 + Z.of_nat (length (list_loop limit (count + 1) entries)))%Z
          by lia.
Qed.

(** [ListReceipts] changes nothing and returns summaries of stored receipts,
    none twice, with [total_count] the counter whatever the limit.  The
    limit is the number [tonumber] makes of the [Limit] tag, or 100; the
    listing stops at the first count that has reached it, or at the end of
    the table: no count below the number of summaries had reached the limit,
    and that number is the size of the table unless it has reached the limit
    itself.  For an integer limit this is the smaller of the limit and the
    size; a limit that is not an integer, such as 1.5, lets one more receipt
    through than its integer part. *)
Theorem ListReceipts_is_bounded msg st :
  let limit := default (LInteger 100) (TagLimit msg ≫= tonumber) in
  exists summaries,
    ListReceipts tonumber msg st =
      (st, send_reply msg "ReceiptList" (RReceiptList summaries (ReceiptCount st))) /\
    (length summaries <= size (Receipts st))%nat /\
    (forall k, (k < length summaries)%nat -> reached (Z.of_nat k) limit = false) /\
    (length summaries = size (Receipts st) \/
     reached (Z.of_nat (length summaries)) limit = true) /\
    (forall z, limit = LInteger z ->
       length summaries = (Z.to_nat z `min` size (Receipts st))%nat) /\
    NoDup (summaries.*1.*1) /\
    (forall rid ts at_, (rid, ts, at_) ∈ summaries ->
       exists x, Receipts st !! rid = Some x /\
                 ts = s_timestamp_ms x /\ at_ = stored_at x).
Proof.
  intros limit. eexists. split; [reflexivity|]. fold limit.
  destruct (list_loop_spec limit (map_to_list (Receipts st)) 0%Z)
    as (Hout & Hbelow & Hend). cbn zeta in *.
  set (out := list_loop limit 0 (map_to_list (Receipts st))) in *.
  rewrite length_map_to_list in Hend.
  assert (length out <= size (Receipts st))%nat as Hle.
  { rewrite Hout, length_fmap, length_take, length_map_to_list. lia. }
  split_and!; try done.
  - intros z Hz. rewrite Hz in Hbelow, Hend. simpl in Hbelow, Hend.
    destruct Hend as [Hend|Hend%Z.leb_le].
    + rewrite Hend. destruct (size (Receipts st)) as [|n] eqn:En; [lia|].
      specialize (Hbelow n ltac:(lia)). apply Z.leb_gt in Hbelow. lia.
    + destruct (length out) as [|n] eqn:En; [lia|].
      specialize (Hbelow n ltac:(lia)). apply Z.leb_gt in Hbelow. lia.
  - rewrite Hout, <- !list_fmap_compose.
    apply (sublist_NoDup _ ((map_to_list (Receipts st)).*1));
      [apply NoDup_fst_map_to_list|].
    apply (fmap_sublist fst), sublist_take.
  - rewrite Hout. intros rid ts at_ ([k x] & [= -> -> ->] & Hin)%list_elem_of_fmap.
    exists x. split; [|done].
    apply elem_of_map_to_list. eapply elem_of_sublist; [done|apply sublist_take].
Qed.

End Process.

Lemma only_the_owner_changes_the_state_witness :
  (Ledger.handle "process" sample_decode (fun _ => None) intruder_msg
     (initial "process" (Some "owner"))).1 = initial "process" (Some "owner").
Proof.
  apply (proj1 (only_the_owner_changes_the_state "process" sample_decode
                  (fun _ => None))).
  reflexivity.
Defined.

Lemma frozen_process_stores_nothing_witness :
  let st := set_frozen true (initial "process" (Some "owner")) in
  Receipts (Ledger.run "process" sample_decode (fun _ => None)
              [sample_msg "m1"; sample_query "vts_1"] st) = Receipts st.
Proof.
  intros st.
  refine (proj1 (frozen_process_stores_nothing "process" sample_decode (fun _ => None)
                   [sample_msg "m1"; sample_query "vts_1"] st eq_refl _)).
  intros m Hm [_ Hu].
  apply elem_of_cons in Hm as [->|Hm]; [done|].
  apply list_elem_of_singleton in Hm as ->. done.
Defined.


Lemma stored_count_is_the_growth_witness :
  (StoreReceipts sample_decode (sample_msg "m1")
     (initial "process" (Some "owner"))).2 =
    send_reply (sample_msg "m1") "ReceiptsStored" (RReceiptsStored 2 2).
Proof.
  pose proof (stored_count_is_the_growth sample_decode (sample_msg "m1")
                (initial "process" (Some "owner")) _
                [sample_receipt "vts_1"; sample_receipt "vts_2"; sample_receipt "vts_1"]
                eq_refl eq_refl eq_refl eq_refl) as [H _].
  rewrite H. by vm_compute.
Defined.

(** With two receipts stored, the limit 1 lists one of them and the limit
    1.5 lists both: the count 1 has not reached 1.5. *)
Example fractional_limit_lists_one_more :
  let st := (StoreReceipts sample_decode (sample_msg "m1")
               (initial "process" (Some "owner"))).1 in
  let listed (limit : string) :=
    match (ListReceipts sample_tonumber (sample_list limit) st).2 with
    | [ {| Payload := RReceiptList summaries _ |} ] => Some (length summaries)
    | _ => None
    end in
  size (Receipts st) = 2%nat /\ listed "1" = Some 1%nat /\ listed "1.5" = Some 2%nat.
Proof. vm_compute. by repeat split. Qed.

(** A batch whose second element is a number: the first receipt is stored,
    the handler then raises an error, so that the third is not stored and
    nothing is replied.  A payload that is a number: the handler raises at
    once. *)
Example scalar_element_ends_the_batch :
  let st := initial "process" (Some "owner") in
  let st1 := (StoreReceipts odd_decode (odd_msg "mixed") st).1 in
  is_Some (Receipts st1 !! "vts_1") /\ Receipts st1 !! "vts_2" = None /\
  ReceiptCount st1 = 1%Z /\
  (StoreReceipts odd_decode (odd_msg "mixed") st).2 = [] /\
  StoreReceipts odd_decode (odd_msg "7") st = (st, []).
Proof. split_and!; try by vm_compute. eexists. by vm_compute. Qed.

End LedgerMore.

(** * More about the ledger client and the wallet search *)

Module SettlerMore.

Import Settler SettlerFacts.

(** ** [hashString] *)

Lemma to_int32_add_mul z k : to_int32 (z + k * 2 ^ 32) = to_int32 z.
Proof.
  unfold to_int32. replace (z + k * 2 ^ 32 + 2 ^ 31)%Z with (z + 2 ^ 31 + k * 2 ^ 32)%Z by lia.
  by rewrite Z.mod_add by lia.
Qed.

Lemma to_int32_wraps z : exists k, to_int32 z = (z + k * 2 ^ 32)%Z.
Proof.
  unfold to_int32. exists (- ((z + 2 ^ 31) / 2 ^ 32))%Z.
  pose proof (Z.div_mod (z + 2 ^ 31) (2 ^ 32) ltac:(lia)). lia.
Qed.

Lemma hash_step_base31 p c :
  hash_step (to_int32 p) c = to_int32 (31 * p + Z.of_N c).
Proof.
  unfold hash_step. rewrite Z.shiftl_mul_pow2 by lia.
  destruct (to_int32_wraps p) as [k1 ->].
  destruct (to_int32_wraps ((p + k1 * 2 ^ 32) * 2 ^ 5)) as [k2 ->].
  replace ((p + k1 * 2 ^ 32) * 2 ^ 5 + k2 * 2 ^ 32 - (p + k1 * 2 ^ 32) + Z.of_N c)%Z
    with (31 * p + Z.of_N c + (31 * k1 + k2) * 2 ^ 32)%Z by lia.
  apply to_int32_add_mul.
Qed.

Lemma hash_loop_base31 str : foldl hash_step 0%Z str = to_int32 (base31 str).
Proof.
  unfold base31. induction str as [|c str IH] using rev_ind; [done|].
  rewrite !foldl_snoc, IH. apply hash_step_base31.
Qed.

(** [hashString] is the hash of Java's [String.hashCode] without its sign:
    wrapping at every step of the loop gives the same 32-bit number as
    wrapping the base-31 sum once, and the digest is the hex numeral of its
    absolute value.  Two strings with opposite hashes therefore share a
    digest. *)
Theorem hashString_is_the_wrapped_base31_sum str :
  hashString str = toString16 (Z.to_N (Z.abs (to_int32 (base31 str)))) /\
  (forall str', to_int32 (base31 str') = (- to_int32 (base31 str))%Z ->
     hashString str' = hashString str).
Proof.
  unfold hashString. rewrite hash_loop_base31. split; [done|].
  intros str' H. rewrite hash_loop_base31, H. by rewrite Z.abs_opp.
Qed.

(** ** [settleToArweave] *)

Lemma simulated_ids clock rs : forall n,
  res_receipt_id <$> simulated clock n rs = (fun r => receipt_id (base r)) <$> rs.
Proof.
  induction rs as [|r rs IH]; intros n; simpl; [done|]. by rewrite IH.
Qed.

Section Results.

Context {engine : JsEngine}.

(** [settleToArweave] returns results on every path but one.  When it
    returns, there is one result per receipt of the batch, in the order of
    the batch and under the receipt's id; all the results of a call have the
    same status, and a failed result carries no transaction id.  It returns
    nothing when a process id and a wallet are configured and building the
    entry of some receipt throws: the call is rejected then, before anything
    is sent, and this is the only way in which it is. *)
Theorem settlement_results_follow_the_batch VERITAS_PROCESS_ID rs :
  let ids := (fun r => receipt_id (base r)) <$> rs in
  let uniform (results : list SettlementResult) :=
    res_receipt_id <$> results = ids /\
    (Forall (fun res => res_status res = r_settled /\ is_Some (res_arweave_tx res)) results \/
     Forall (fun res => res_status res = r_failed /\ res_arweave_tx res = None
                        /\ is_Some (error res)) results) in
  (forall processId wallet clock results,
     settleToArweave_start VERITAS_PROCESS_ID processId wallet clock rs = Resolved results ->
     uniform results) /\
  (forall o, uniform (settleToArweave_finish rs o)) /\
  (forall processId wallet clock,
     settleToArweave_start VERITAS_PROCESS_ID processId wallet clock rs = Rejected <->
     (is_Some (truthy_str processId) \/ is_Some (DEFAULT_PROCESS_ID VERITAS_PROCESS_ID)) /\
     is_Some wallet /\
     Exists (fun r => summary r = None) rs).
Proof.
  intros ids uniform. split_and!.
  - intros processId wallet clock results. unfold settleToArweave_start.
    repeat case_match; intros [= <-]; split.
    all: try apply simulated_ids.
    all: try (unfold all_failed; by rewrite <- list_fmap_compose).
    all: first
      [ right; apply Forall_forall; intros res (r & -> & _)%list_elem_of_fmap;
        simpl; by eauto
      | left; apply Forall_forall;
        intros res (i & r & _ & _ & -> & ->)%HttpFacts.simulated_elem; by eauto ].
  - intros [messageId|err]; simpl; split.
    all: try (unfold all_settled, all_failed; by rewrite <- list_fmap_compose).
    + left. apply Forall_forall. intros res (r & -> & _)%list_elem_of_fmap. simpl. by eauto.
    + right. apply Forall_forall. intros res (r & -> & _)%list_elem_of_fmap. simpl. by eauto.
  - intros processId wallet clock. unfold settleToArweave_start.
    rewrite <- mapM_None.
    destruct (truthy_str processId) as [p|];
      [|destruct (DEFAULT_PROCESS_ID VERITAS_PROCESS_ID) as [p|]].
    3: { split; [done|]. by intros ([[? [=]]|[? [=]]] & _). }
    all: destruct wallet as [w|]; [|split; [done|by intros (_ & [? [=]] & _)]].
    all: destruct (mapM summary rs) as [entries|]; split; try done.
    all: try by intros (_ & _ & [=]).
    all: intros _; split_and!; try done; eauto.
Qed.

End Results.

(** ** [verifyOnArweave] *)

Lemma prefix_sim tx :
  String.prefix "sim_" tx = true <-> exists rest, tx = "sim_" +:+ rest.
Proof.
  split.
  - intros H%String.prefix_correct. cbn [String.length] in H.
    do 4 (destruct tx as [|? tx]; [done|]; cbn [substring] in H;
          injection H as -> H).
    by exists tx.
  - intros [rest ->]. apply String.prefix_correct. cbn. by destruct rest.
Qed.

(** [verifyOnArweave] finds a transaction exactly when its id starts with
    "sim_"; so it finds every transaction id that the simulated settlement
    hands out, under the receipt id it was asked about, and it finds no
    message id of the ledger unless that id happens to start with "sim_". *)
Theorem verifyOnArweave_finds_simulated_transactions :
  (forall tx rid,
     found (verifyOnArweave tx rid) = true <-> exists rest, tx = "sim_" +:+ rest) /\
  (forall clock n rs res, res ∈ simulated clock n rs ->
     exists tx,
       res_arweave_tx res = Some tx /\
       verifyOnArweave tx (res_receipt_id res) =
         {| found := true;
            found_data := Some {| simulated_flag := true;
                                  sd_receipt_id := res_receipt_id res;
                                  sd_arweave_tx := tx |} |}).
Proof.
  split.
  - intros tx rid. rewrite <- prefix_sim. unfold verifyOnArweave.
    by destruct (String.prefix "sim_" tx).
  - intros clock n rs res (i & r & _ & _ & _ & Htx)%HttpFacts.simulated_elem.
    eexists. split; [done|]. unfold verifyOnArweave.
    rewrite (proj2 (prefix_sim _)); [done|by eexists].
Qed.

(** ** [loadWallet] and the wallet search of the spawn script *)

Section Wallets.

Variable WALLET_PATH : option string.
Variable cwd : string.
Variable homedir : string.
Variable join : list string -> string.
Variable fs : string -> File.
Variable JSON_parse : string -> Parsed.

Local Abbreviation first_wallet := (Settler.first_wallet fs JSON_parse).
Local Abbreviation loadWallet :=
  (Settler.loadWallet WALLET_PATH cwd homedir join fs JSON_parse).
Local Abbreviation locations := (Settler.locations WALLET_PATH cwd homedir join).
Local Abbreviation passed_over := (Settler.passed_over fs JSON_parse).

Lemma first_wallet_passes before : forall rest,
  Forall passed_over before ->
  first_wallet (before ++ rest) = first_wallet rest.
Proof.
  induction before as [|p before IH]; intros rest H; [done|].
  apply Forall_cons in H as [Hp H]. simpl. unfold passed_over in Hp.
  destruct (fs p); try by apply IH. rewrite Hp. by apply IH.
Qed.

(** [loadWallet] returns the value of the first candidate file that exists,
    can be read and parses, passing over the others; when that value is
    falsy it returns it all the same, so that the files behind it are never
    tried. *)
Theorem loadWallet_takes_the_first_file_that_parses paths :
  (forall w,
     first_wallet paths = Some w <->
     exists before path text after,
       paths = (before ++ path :: after)%list /\ Forall passed_over before /\
       fs path = Content text /\ JSON_parse text = Value w) /\
  (forall before path text after,
     paths = (before ++ path :: after)%list -> Forall passed_over before ->
     fs path = Content text -> JSON_parse text = Falsy ->
     first_wallet paths = None) /\
  (Forall passed_over paths -> first_wallet paths = None).
Proof.
  split_and!.
  - intros w. split.
    + induction paths as [|p paths IH]; [done|]. simpl.
      destruct (fs p) as [| |text] eqn:Ep.
      1,2: intros (before & path & text' & after & -> & Hb & Hf & Hj)%IH;
        exists (p :: before), path, text', after; split_and!; try done;
        apply Forall_cons; split; [by unfold passed_over; rewrite Ep|done].
      destruct (JSON_parse text) as [| |w'] eqn:Ej; [|done|].
      * intros (before & path & text' & after & -> & Hb & Hf & Hj)%IH.
        exists (p :: before), path, text', after. split_and!; try done.
        apply Forall_cons. split; [by unfold passed_over; rewrite Ep|done].
      * intros [= ->]. exists [], p, text, paths. by split_and!.
    + intros (before & path & text & after & -> & Hb & Hf & Hj).
      rewrite first_wallet_passes by done. simpl. by rewrite Hf, Hj.
  - intros before path text after -> Hb Hf Hj.
    rewrite first_wallet_passes by done. simpl. by rewrite Hf, Hj.
  - intros H. rewrite <- (app_nil_r paths). by rewrite first_wallet_passes.
Qed.

(** The spawn script and the ledger client look in the same places, and
    whenever the script ends up using a wallet, [loadWallet] returns that
    wallet.  (The script stops at the first file that exists, and crashes
    where [loadWallet] goes on to the next candidate.) *)
Theorem spawn_and_settler_find_the_same_wallet :
  Spawn.walletPaths WALLET_PATH cwd homedir join = locations /\
  (forall path w,
     Spawn.wallet WALLET_PATH cwd homedir join fs JSON_parse = Spawn.Using path w ->
     loadWallet = Some w /\ path ∈ locations /\
     exists text, fs path = Content text /\ JSON_parse text = Value w).
Proof.
  split; [done|]. intros path w.
  unfold Spawn.wallet, Settler.loadWallet.
  change (Spawn.walletPaths WALLET_PATH cwd homedir join) with locations.
  induction locations as [|p paths IH]; [done|]. simpl.
  destruct (fs p) as [| |text] eqn:Ep; [|done|].
  - intros (? & ? & ?)%IH. split_and!; [done|by right|done].
  - destruct (JSON_parse text) as [| |w'] eqn:Ej; try done.
    intros [= -> ->]. split_and!; [done|by left|by exists text].
Qed.

End Wallets.

#[local] Existing Instance Demo.demo_engine.

(** Two strings whose sums are 1 and 2^32 - 1. *)
Lemma hashString_is_the_wrapped_base31_sum_witness :
  hashString [4650; 19; 29; 24; 3]%N = hashString [1%N].
Proof.
  apply (proj2 (hashString_is_the_wrapped_base31_sum [1%N])).
  vm_compute. reflexivity.
Defined.

Lemma settlement_results_follow_the_batch_witness :
  res_receipt_id <$> simulated (Demo.clock_at Demo.t0) 0 [Demo.receipt1] = [Demo.id1].
Proof.
  pose proof (settlement_results_follow_the_batch None [Demo.receipt1]) as H.
  cbv zeta in H.
  exact (proj1 (proj1 H None None (Demo.clock_at Demo.t0) _ eq_refl)).
Defined.

Lemma verifyOnArweave_finds_simulated_transactions_witness :
  exists tx,
    verifyOnArweave tx Demo.id1 =
      {| found := true;
         found_data := Some {| simulated_flag := true; sd_receipt_id := Demo.id1;
                               sd_arweave_tx := tx |} |}.
Proof.
  destruct (proj2 verifyOnArweave_finds_simulated_transactions
              (Demo.clock_at Demo.t0) 0%nat [Demo.receipt1] _ ltac:(left))
    as (tx & _ & H).
  exists tx. exact H.
Defined.

Lemma loadWallet_takes_the_first_file_that_parses_witness :
  first_wallet Demo.demo_fs Demo.demo_parse
    ["cwd/wallets/wallet.json"; "home/.aos.json"] = Some (Jwk "{}").
Proof.
  apply (proj1 (loadWallet_takes_the_first_file_that_parses
                  Demo.demo_fs Demo.demo_parse _)).
  exists ["cwd/wallets/wallet.json"], "home/.aos.json", "{}", [].
  split_and!; [reflexivity| |reflexivity|reflexivity].
  constructor; [exact I|constructor].
Defined.

Lemma spawn_and_settler_find_the_same_wallet_witness :
  loadWallet None "cwd" "home" Demo.demo_join Demo.demo_fs Demo.demo_parse
  = Some (Jwk "{}").
Proof.
  exact (proj1 (proj2 (spawn_and_settler_find_the_same_wallet None "cwd" "home"
                         Demo.demo_join Demo.demo_fs Demo.demo_parse)
                  "home/.aos.json" (Jwk "{}") eq_refl)).
Defined.

End SettlerMore.

(** * More about the HTTP server *)

Module HttpMore.

Import Settler Http HttpFacts.

Section Server.

Context {crypto : NodeCrypto} {engine : JsEngine}.
Variable VERITAS_PROCESS_ID : option string.
Variable SERVER_PUBLIC_KEY : string.

Local Abbreviation step := (Http.step VERITAS_PROCESS_ID).
Local Abbreviation run := (Http.run VERITAS_PROCESS_ID).
Local Abbreviation handleRequest := (Http.handleRequest SERVER_PUBLIC_KEY).

(** *** Receipts are kept *)

Lemma verifyReceipt_finds rid st :
  is_Some (receipt (verifyReceipt rid st).1) <-> known st rid.
Proof.
  unfold known, has_pending, has_settled.
  destruct (map_get rid (settledReceipts st)) as [x|] eqn:Hs.
  - rewrite (verifyReceipt_settled rid st x Hs). simpl. split; [by right|by eexists].
  - destruct (map_get rid (pendingReceipts st)) as [p|] eqn:Hp.
    + rewrite (verifyReceipt_pending rid st p Hs Hp). simpl. split; [by left|by eexists].
    + rewrite (verifyReceipt_unknown rid st Hs Hp). simpl.
      split; [by intros [? [=]]|]. by intros [[? [=]]|[? [=]]].
Qed.

Lemma run_known es k : forall st, known st k -> known (run es st) k.
Proof.
  induction es as [|e es IH]; intros st H; [done|].
  simpl. by apply IH, step_known.
Qed.

Lemma run_has_settled es k : forall st, has_settled st k -> has_settled (run es st) k.
Proof.
  induction es as [|e es IH]; intros st H; [done|].
  simpl. by apply IH, step_has_settled.
Qed.

(** No request, timer tick or ledger reply removes a receipt: an id for which
    [verifyReceipt] returns a receipt gets one after any further events, and
    an id in the settled store stays there. *)
Theorem receipts_are_never_lost es st rid :
  (is_Some (receipt (verifyReceipt rid st).1) ->
   is_Some (receipt (verifyReceipt rid (run es st)).1)) /\
  (has_settled st rid -> has_settled (run es st) rid).
Proof.
  split.
  - rewrite !verifyReceipt_finds. apply run_known.
  - apply run_has_settled.
Qed.

(** When the call to the ledger throws, the suspended settlement ends
    without touching either store: its receipts are still pending, and the
    next tick submits them again. *)
Theorem failed_ledger_call_changes_no_store k errorMessage st :
  let st' := step st (LedgerReturns k (Threw errorMessage)) in
  pendingReceipts st' = pendingReceipts st /\
  settledReceipts st' = settledReceipts st /\
  in_flight st' = delete k (in_flight st).
Proof.
  intros st'. unfold st'. rewrite step_LedgerReturns, settleReceipts_resume_eq.
  destruct (in_flight st !! k) as [batch|]; [|done].
  simpl. rewrite apply_results_failed; [done|].
  apply Forall_forall. by intros res (r & -> & _)%list_elem_of_fmap.
Qed.

(** *** Ids and hashes of stored receipts *)

Lemma apply_results_derived results : forall st,
  entries pending_derived (pendingReceipts st) ->
  entries settled_derived (settledReceipts st) ->
  entries pending_derived (pendingReceipts (apply_results results st).2) /\
  entries settled_derived (settledReceipts (apply_results results st).2).
Proof.
  induction results as [|res rs IH]; intros st Hp Hs; [done|].
  rewrite apply_results_cons. unfold apply_result_state.
  destruct (map_get (res_receipt_id res) (pendingReceipts st)) as [p|] eqn:E;
    [|by apply IH].
  destruct (res_status res); [|by apply IH].
  apply IH; simpl.
  - by apply entries_delete.
  - apply entries_set; [done|]. by destruct (entries_get _ _ _ _ Hp E).
Qed.

Lemma step_derived e st :
  entries pending_derived (pendingReceipts st) ->
  entries settled_derived (settledReceipts st) ->
  entries pending_derived (pendingReceipts (step st e)) /\
  entries settled_derived (settledReceipts (step st e)).
Proof.
  intros Hp Hs. destruct e as [body now entropy|rid|wallet clock|j o].
  - rewrite step_PostWitness. destruct (as_request body) as [request|]; [|done].
    rewrite witnessDecision_eq. simpl. split; [|done].
    by apply entries_set.
  - rewrite step_GetVerify.
    by destruct (verifyReceipt_stores rid st) as (-> & -> & _).
  - rewrite step_Interval.
    destruct (on_interval_cases VERITAS_PROCESS_ID wallet clock st)
      as [->|[(rs & _ & ->)|(m & _ & ->)]]; [done| |done].
    by apply apply_results_derived.
  - rewrite step_LedgerReturns, settleReceipts_resume_eq.
    destruct (in_flight st !! j); [|done]. by apply apply_results_derived.
Qed.

(** In every state the server reaches, each receipt is stored under the id
    that [generateReceiptId] derives from its hash, in the pending store and
    in the settled store alike, and the hash of a pending receipt is the
    digest of the payload kept with it at its timestamp. *)
Theorem stored_ids_derive_from_hashes es :
  let st := run es initial in
  (forall k p, map_get k (pendingReceipts st) = Some p ->
     receipt_id (base p) = k /\ k = generateReceiptId (hash (base p)) /\
     hash (base p)
       = sha256_hex (hashed_payload (full_payload p) (timestamp_ms (base p)))) /\
  (forall k x, map_get k (settledReceipts st) = Some x ->
     receipt_id x = k /\ k = generateReceiptId (hash x)).
Proof.
  intros st.
  assert (entries pending_derived (pendingReceipts st) /\
          entries settled_derived (settledReceipts st)) as [Hp Hs].
  { unfold st. induction es as [|e es IH] using rev_ind.
    - split; intros ??; by intros ?%elem_of_nil.
    - rewrite run_snoc. destruct IH. by apply step_derived. }
  pose proof (run_wf VERITAS_PROCESS_ID es) as [Wp Ws _]. fold st in Wp, Ws.
  split.
  - intros k p Hk. destruct (entries_get _ _ _ _ Hp Hk) as [? ?].
    by destruct (entries_get _ _ _ _ Wp Hk) as (? & _).
  - intros k x Hk. pose proof (entries_get _ _ _ _ Hs Hk).
    by destruct (entries_get _ _ _ _ Ws Hk) as (? & _).
Qed.

(** *** The routes *)

(** A route that only reads: the sizes, or [verifyReceipt]. *)
Local Ltac route_done :=
  first
    [ unfold bind;
      match goal with
      | |- context [verifyReceipt ?rid ?st] =>
          destruct (verifyReceipt_stores rid st) as (? & ? & ?);
          destruct (verifyReceipt rid st) as [? ?]; simpl in *;
          by split_and!
      end
    | unfold bind, pending_size, settled_size; simpl; done ].

(** The tests that [handleRequest] makes on the method and the path. *)
Local Ltac route_cases :=
  repeat match goal with
         | |- context [if ?b then _ else _] =>
             lazymatch b with
             | valid _ => fail
             | _ => destruct b eqn:?
             end
         end.

(** Of all the requests the server answers, only a [POST /witness] changes
    the stores, and only when its body has a truthy context, a truthy logic
    and a truthy action; it then changes the pending store alone, by the
    entry of the receipt it returns, which keeps these members.  Every other
    request (a query, a body that does not parse, a body with a missing or
    falsy member, the body [null], an unknown route) leaves both stores and
    the suspended settlements as they are. *)
Theorem only_witness_requests_change_the_stores req now entropy st :
  let answer := (handleRequest req now entropy st).1 in
  let st' := (handleRequest req now entropy st).2 in
  settledReceipts st' = settledReceipts st /\
  in_flight st' = in_flight st /\
  match answer with
  | Witnessed code success receipt =>
      method req = "POST" /\ pathname req = "/witness" /\
      exists body request,
        parsed req = Some body /\
        member "context" body = Some (context request) /\
        member "logic" body = Some (logic request) /\
        member "action" body = Some (action request) /\
        ToBoolean (context request) = true /\
        ToBoolean (logic request) = true /\
        ToBoolean (action request) = true /\
        as_request body = Some request /\
        pendingReceipts st' =
          map_set (receipt_id receipt) {| base := receipt; full_payload := request |}
            (pendingReceipts st)
  | _ => pendingReceipts st' = pendingReceipts st
  end.
Proof.
  intros answer st'. unfold answer, st', Http.handleRequest.
  destruct (String.eqb (method req) "OPTIONS"); [done|].
  destruct (String.eqb (method req) "POST") eqn:Em.
  - apply String.eqb_eq in Em.
    destruct (parsed req) as [body|] eqn:Eb; [|done].
    destruct (String.eqb (pathname req) "/" || String.eqb (pathname req) "/health");
      [done|].
    destruct (String.eqb (pathname req) "/witness") eqn:Ep.
    + apply String.eqb_eq in Ep. cbn [andb].
      destruct (as_request body) as [request|] eqn:E; [|by destruct body].
      pose proof (proj1 (as_request_Some _ _) E) as (? & ? & ? & _ & ? & ? & ?).
      destruct body; try done.
      all: unfold bind; rewrite witnessDecision_eq; simpl.
      all: split_and!; try done; eexists _, request; by split_and!.
    + cbn [andb]. route_cases; route_done.
  - route_cases; route_done.
Qed.

Lemma substring_all s : substring 0 (String.length s) s = s.
Proof. induction s as [|a s IH]; simpl; [done|]. by rewrite IH. Qed.

Lemma handleRequest_verify rid anything now entropy st :
  handleRequest {| method := "GET"; pathname := "/verify/" +:+ rid;
                   parsed := anything |} now entropy st =
  (Verification (if valid (verifyReceipt rid st).1 then 200 else 404)
     (verifyReceipt rid st).1,
   (verifyReceipt rid st).2).
Proof.
  unfold Http.handleRequest.
  cbn [method pathname parsed String.eqb Ascii.eqb Bool.eqb orb andb].
  assert (String.prefix "/verify/" ("/verify/" +:+ rid) = true) as ->
    by (apply String.prefix_correct; destruct rid; reflexivity).
  let path := eval cbv [String.append] in ("/verify/" +:+ rid) in
  change ("/verify/" +:+ rid) with path.
  cbn [String.eqb Ascii.eqb Bool.eqb orb andb String.length Nat.sub].
  rewrite Nat.sub_0_r. cbn [substring].
  rewrite substring_all. unfold bind.
  by destruct (verifyReceipt rid st).
Qed.

Section Signed.

Context {laws : NodeCryptoLaws crypto}.

(** A receipt that [POST /witness] has just returned is found by
    [GET /verify/<receipt_id>]: unless a receipt with the same id had already
    been settled, the answer has status 200 and carries the very receipt
    that was returned, with [valid = true] and the message that settlement is
    pending. *)
Theorem witnessed_receipt_verifies_as_pending body c l a now entropy now' entropy' st :
  member "context" body = Some c -> member "logic" body = Some l ->
  member "action" body = Some a ->
  ToBoolean c = true -> ToBoolean l = true -> ToBoolean a = true ->
  let post := {| method := "POST"; pathname := "/witness"; parsed := Some body |} in
  exists receipt,
    (handleRequest post now entropy st).1 = Witnessed 200 true receipt /\
    (map_get (receipt_id receipt) (settledReceipts st) = None ->
     forall anything,
       let get := {| method := "GET";
                     pathname := "/verify/" +:+ receipt_id receipt;
                     parsed := anything |} in
       (handleRequest get now' entropy' (handleRequest post now entropy st).2).1 =
         Verification 200
           {| valid := true; receipt := Some receipt;
              message := "Receipt verified, settlement pending" |}).
Proof.
  intros Hc Hl Ha Tc Tl Ta post.
  set (request := {| context := c; logic := l; action := a;
                     agent_id := member "agent_id" body |}).
  assert (as_request body = Some request) as E.
  { unfold as_request. by rewrite Hc, Hl, Ha, Tc, Tl, Ta. }
  exists (witnessed request now entropy).
  assert (Hpost : handleRequest post now entropy st
                  = (Witnessed 200 true (witnessed request now entropy),
                     (witnessDecision now entropy request st).2)).
  { unfold post, Http.handleRequest.
    cbn [method pathname parsed String.eqb Ascii.eqb Bool.eqb orb andb].
    rewrite E. unfold bind. rewrite witnessDecision_eq.
    by destruct body. }
  rewrite Hpost. split; [done|]. intros Hfresh anything get.
  cbn [snd]. rewrite witnessDecision_eq.
  set (st1 := {| pendingReceipts := _ |}).
  assert (Hverify : (verifyReceipt (generateReceiptId (sha256_hex (hashed_payload request now))) st1).1
                    = {| valid := true; receipt := Some (witnessed request now entropy);
                         message := "Receipt verified, settlement pending" |}).
  { rewrite (verifyReceipt_pending _ st1
               {| base := witnessed request now entropy; full_payload := request |}).
    - simpl. by rewrite sign_then_verify.
    - done.
    - apply map_get_set_eq. }
  unfold get. rewrite handleRequest_verify.
  change (receipt_id (witnessed request now entropy))
    with (generateReceiptId (sha256_hex (hashed_payload request now))).
  cbn [fst snd]. by rewrite Hverify.
Qed.

End Signed.

End Server.

#[local] Existing Instance Demo.demo_crypto.
#[local] Existing Instance Demo.demo_engine.
#[local] Existing Instance Scenarios.demo_laws.

(** A receipt that is witnessed, settled by the simulation and witnessed
    again. *)
Lemma receipts_are_never_lost_witness :
  is_Some (receipt (verifyReceipt Demo.id1
                      (Http.run None Demo.rewitness_run initial)).1).
Proof.
  apply (proj1 (receipts_are_never_lost None
                  [Interval None (Demo.clock_at Demo.t0);
                   PostWitness Demo.body1 Demo.t0 8]
                  (Http.run None [PostWitness Demo.body1 Demo.t0 7] initial)
                  Demo.id1)).
  eexists. vm_compute. reflexivity.
Defined.

Lemma stored_ids_derive_from_hashes_witness :
  receipt_id (base Demo.receipt1) = Demo.id1 /\
  Demo.id1 = generateReceiptId (hash (base Demo.receipt1)).
Proof.
  pose proof (stored_ids_derive_from_hashes None [PostWitness Demo.body1 Demo.t0 7])
    as H.
  cbv zeta in H.
  assert (map_get Demo.id1
            (pendingReceipts (Http.run None [PostWitness Demo.body1 Demo.t0 7] initial))
          = Some Demo.receipt1) as Hget by (vm_compute; reflexivity).
  destruct (proj1 H Demo.id1 Demo.receipt1 Hget) as (H1 & H2 & _).
  split; [exact H1|exact H2].
Defined.

(** A request witnessed by the empty server, and the query for its id. *)
Lemma witnessed_receipt_verifies_as_pending_witness :
  let post := {| method := "POST"; pathname := "/witness";
                 parsed := Some Demo.body1 |} in
  exists receipt,
    (handleRequest "key" post Demo.t0 7 initial).1 = Witnessed 200 true receipt /\
    (handleRequest "key"
       {| method := "GET"; pathname := "/verify/" +:+ receipt_id receipt;
          parsed := None |}
       (Demo.t0 + 1) 8 (handleRequest "key" post Demo.t0 7 initial).2).1 =
      Verification 200
        {| valid := true; receipt := Some receipt;
           message := "Receipt verified, settlement pending" |}.
Proof.
  intros post.
  destruct (witnessed_receipt_verifies_as_pending "key" Demo.body1
              (VString (js "c")) (VString (js "l")) (VString (js "a"))
              Demo.t0 7 (Demo.t0 + 1) 8 initial)
    as (receipt & H1 & H2); [done..|].
  exists receipt. split; [exact H1|].
  apply (H2 eq_refl None).
Defined.

End HttpMore.

(** * More about the MCP server *)

Module McpMore.

Import Http HttpFacts.

Section Tools.

Context {crypto : NodeCrypto} {engine : JsEngine}.
Variable SERVER_PUBLIC_KEY : string.
Variables cannot_read_context cannot_destructure : string.

Local Abbreviation call_tool :=
  (Mcp.call_tool SERVER_PUBLIC_KEY cannot_read_context cannot_destructure).

Lemma mcp_verifyReceipt_stores rid st :
  pendingReceipts (Mcp.verifyReceipt rid st).2 = pendingReceipts st /\
  settledReceipts (Mcp.verifyReceipt rid st).2 = settledReceipts st.
Proof.
  unfold Mcp.verifyReceipt, bind, settled_get, pending_get; simpl.
  destruct (map_get rid (settledReceipts st)); [done|].
  by destruct (map_get rid (pendingReceipts st)).
Qed.

(** The verification tool of the MCP server and the [/verify] route of the
    HTTP server give the same verdict on the same stores: the same [valid],
    the same receipt when every pending entry is [Pending] without a
    transaction (as [witnessDecision] stores it), and the same message, but
    for a settled receipt whose signature verifies, where the MCP server adds
    the words "on Arweave". *)
Theorem mcp_and_http_verification_agree rid st :
  entries pending_shape (pendingReceipts st) ->
  let mcp := (Mcp.verifyReceipt rid st).1 in
  let http := (Http.verifyReceipt rid st).1 in
  valid mcp = valid http /\
  receipt mcp = receipt http /\
  (message mcp = message http \/
   is_Some (map_get rid (settledReceipts st)) /\ valid http = true /\
   message mcp = "Receipt verified and settled on Arweave" /\
   message http = "Receipt verified and settled").
Proof.
  intros Hshape mcp http. unfold mcp, http.
  unfold Mcp.verifyReceipt, Http.verifyReceipt, bind, settled_get, pending_get; simpl.
  destruct (map_get rid (settledReceipts st)) as [x|] eqn:Hs; simpl.
  - split_and!; try done.
    destruct (ecdsa_verify (hash x) (signature x)); [right|by left].
    by split_and!.
  - destruct (map_get rid (pendingReceipts st)) as [p|] eqn:Hp; simpl.
    + destruct (entries_get _ _ _ _ Hshape Hp) as (_ & Hstatus & Htx).
      split_and!; try done; [|by left].
      destruct p as [[]]; simpl in *. by subst.
    + split_and!; try done. by left.
Qed.

(** Of all the tool calls, only a [witness_decision] whose arguments hold the
    three required fields changes the stores, and it changes the pending store
    alone, by one entry under the id of the receipt it returns; a call
    without arguments, with a missing or falsy field, a verification, the
    server information and an unknown tool leave both stores as they are. *)
Theorem only_witness_decision_changes_the_stores call now entropy st :
  let result := (call_tool call now entropy st).1 in
  let st' := (call_tool call now entropy st).2 in
  settledReceipts st' = settledReceipts st /\
  match result with
  | Mcp.WitnessText success receipt _ _ =>
      exists args request,
        call = Mcp.witness_decision (Some args) /\
        as_request (VObject args) = Some request /\
        success = true /\
        pendingReceipts st' =
          map_set (receipt_id receipt) {| base := receipt; full_payload := request |}
            (pendingReceipts st)
  | _ => pendingReceipts st' = pendingReceipts st
  end.
Proof.
  intros result st'. unfold result, st', Mcp.call_tool.
  destruct call as [[args|]|[args|]| |name]; try done.
  - destruct (as_request (VObject args)) as [request|] eqn:E; [|done].
    unfold bind. rewrite witnessDecision_eq. simpl.
    split; [done|]. by exists args, request.
  - destruct (or_null (own_property (js "receipt_id") args)) as [rid|]; [|done].
    unfold bind, Mcp.verifyReceipt_of.
    destruct (map_key rid) as [rid'|]; [|done].
    destruct (mcp_verifyReceipt_stores rid' st) as [? ?].
    by destruct (Mcp.verifyReceipt rid' st).
Qed.

End Tools.

#[local] Existing Instance Demo.demo_crypto.
#[local] Existing Instance Demo.demo_engine.

(** A state whose pending store holds one receipt as [witnessDecision]
    stores it. *)
Lemma mcp_and_http_verification_agree_witness :
  let st := (witnessDecision Demo.t0 7 Demo.request1 initial).2 in
  valid (Mcp.verifyReceipt Demo.id1 st).1 = valid (Http.verifyReceipt Demo.id1 st).1 /\
  receipt (Mcp.verifyReceipt Demo.id1 st).1 = receipt (Http.verifyReceipt Demo.id1 st).1.
Proof.
  intros st.
  assert (Hshape : entries pending_shape (pendingReceipts st)).
  { unfold st. rewrite witnessDecision_eq. cbn [snd pendingReceipts].
    apply entries_set; [by intros ? ? ?%elem_of_nil|].
    split_and!; reflexivity. }
  destruct (mcp_and_http_verification_agree Demo.id1 st Hshape) as (H1 & H2 & _).
  split; [exact H1|exact H2].
Defined.

End McpMore.

(** * The hashed payload determines the request *)

Module PayloadFacts.

Import Http.

Lemma unhex_hex_digit k :
  (k < 16)%N -> unhex_digit (N_of_ascii (Settler.hex_digit k)) = k.
Proof.
  intros Hk.
  assert (k ∈ (N.of_nat <$> seq 0 16)) as Hin.
  { apply list_elem_of_fmap. exists (N.to_nat k). split; [lia|].
    apply elem_of_seq. lia. }
  clear Hk. cbn in Hin. set_unfold in Hin.
  repeat (destruct Hin as [->|Hin]; [reflexivity|]). done.
Qed.

Lemma unicode_escape_eq c :
  unicode_escape c =
  [92; 117; N_of_ascii (Settler.hex_digit (c / 4096 mod 16));
   N_of_ascii (Settler.hex_digit (c / 256 mod 16));
   N_of_ascii (Settler.hex_digit (c / 16 mod 16));
   N_of_ascii (Settler.hex_digit (c mod 16))]%N.
Proof. reflexivity. Qed.

Lemma unquote_escape c tail :
  (c < 65536)%N ->
  unquote_units (unicode_escape c ++ tail) = prepend c (unquote_units tail).
Proof.
  intros Hc. rewrite unicode_escape_eq.
  cbn [app unquote_units N.eqb Pos.eqb].
  rewrite !unhex_hex_digit by (apply N.mod_lt; lia).
  f_equal. zify. Z.to_euclidean_division_equations. lia.
Qed.

Lemma quote_unit_other c :
  c <> 8%N -> c <> 9%N -> c <> 10%N -> c <> 12%N -> c <> 13%N ->
  c <> 34%N -> c <> 92%N ->
  quote_unit c = if (c <? 32)%N then unicode_escape c else [c].
Proof.
  intros. unfold quote_unit.
  destruct c as [|p]; [done|].
  do 7 (try (destruct p as [p|p|]; try done)).
Qed.

Lemma unquote_quote_unit c tail :
  is_high_surrogate c = false -> is_low_surrogate c = false ->
  unquote_units (quote_unit c ++ tail) = prepend c (unquote_units tail).
Proof.
  intros _ _.
  destruct (decide (c = 8%N)) as [->|?]; [done|].
  destruct (decide (c = 9%N)) as [->|?]; [done|].
  destruct (decide (c = 10%N)) as [->|?]; [done|].
  destruct (decide (c = 12%N)) as [->|?]; [done|].
  destruct (decide (c = 13%N)) as [->|?]; [done|].
  destruct (decide (c = 34%N)) as [->|?]; [done|].
  destruct (decide (c = 92%N)) as [->|?]; [done|].
  rewrite quote_unit_other by done.
  destruct (c <? 32)%N eqn:E.
  - apply N.ltb_lt in E. apply unquote_escape. lia.
  - cbn [app unquote_units].
    destruct (N.eqb_spec c 34); [done|]. by destruct (N.eqb_spec c 92).
Qed.

Lemma unquote_surrogate c tail :
  is_high_surrogate c = true \/ is_low_surrogate c = true ->
  unquote_units (c :: tail) = prepend c (unquote_units tail) /\ (c < 65536)%N.
Proof.
  unfold is_high_surrogate, is_low_surrogate. intros H.
  assert (55296 <= c <= 57343)%N as Hc
    by (destruct H as [H|H]; apply andb_true_iff in H as [?%N.leb_le ?%N.leb_le]; lia).
  split; [|lia]. cbn [unquote_units].
  destruct (N.eqb_spec c 34); [lia|]. by destruct (N.eqb_spec c 92); [lia|].
Qed.

(** Reading back what [quote_units] writes gives the string, and stops at the
    closing quote. *)
Lemma unquote_quote_units s : forall tail,
  unquote_units (quote_units s ++ 34%N :: tail) = Some (s, tail).
Proof.
  induction s as [s IH] using (induction_ltof1 _ (@length N)); unfold ltof in IH.
  intros tail. destruct s as [|c rest]; [done|].
  cbn [quote_units].
  destruct (is_high_surrogate c) eqn:Hh.
  - destruct (unquote_surrogate c [] (or_introl Hh)) as [_ Hc].
    destruct rest as [|d rest'].
    + rewrite unquote_escape by done. done.
    + destruct (is_low_surrogate d) eqn:Hl.
      * cbn [app].
        rewrite (proj1 (unquote_surrogate c _ (or_introl Hh))).
        rewrite (proj1 (unquote_surrogate d _ (or_intror Hl))).
        rewrite IH by (simpl; lia). done.
      * rewrite <- app_assoc, unquote_escape by done.
        rewrite IH by (simpl; lia). done.
  - destruct (is_low_surrogate c) eqn:Hl.
    + destruct (unquote_surrogate c [] (or_intror Hl)) as [_ Hc].
      rewrite <- app_assoc, unquote_escape by done.
      rewrite IH by (simpl; lia). done.
    + rewrite <- app_assoc, unquote_quote_unit by done.
      rewrite IH by (simpl; lia). done.
Qed.

Lemma quote_units_inj s1 tail1 s2 tail2 :
  (quote_units s1 ++ 34%N :: tail1 = quote_units s2 ++ 34%N :: tail2)%list ->
  s1 = s2 /\ tail1 = tail2.
Proof.
  intros H. apply (f_equal unquote_units) in H.
  rewrite !unquote_quote_units in H. by injection H.
Qed.

Lemma js_inj s1 s2 : js s1 = js s2 -> s1 = s2.
Proof.
  unfold js. intros H.
  rewrite <- (string_of_list_ascii_of_string s1), <- (string_of_list_ascii_of_string s2).
  f_equal. revert H. generalize (list_ascii_of_string s1) (list_ascii_of_string s2).
  intros l1. induction l1 as [|a l1 IH]; intros [|b l2] H; try done.
  simpl in H. injection H as Hab H. f_equal; [|by apply IH].
  by rewrite <- (ascii_N_embedding a), <- (ascii_N_embedding b), Hab.
Qed.

Section Payload.

Context {engine : JsEngine}.

Lemma or_null_string (g : option jsstring) :
  or_null (VString <$> g) = VString <$> truthy g.
Proof. by destruct g as [[|]|]. Qed.

Lemma agent_inj (g1 g2 : option jsstring) tail1 tail2 :
  (stringify_value (from_option JValue JNull (VString <$> g1)) ++ tail1 =
   stringify_value (from_option JValue JNull (VString <$> g2)) ++ tail2)%list ->
  g1 = g2 /\ tail1 = tail2.
Proof.
  intros H. destruct g1 as [g1|], g2 as [g2|].
  - change (([34%N] ++ quote_units g1 ++ [34%N]) ++ tail1 =
            ([34%N] ++ quote_units g2 ++ [34%N]) ++ tail2)%list in H.
    rewrite <- !app_assoc in H. apply app_inv_head in H.
    apply quote_units_inj in H as [-> H]. done.
  - apply (f_equal head) in H. vm_compute in H. discriminate H.
  - apply (f_equal head) in H. vm_compute in H. discriminate H.
  - by apply app_inv_head in H.
Qed.

(** The payload, as the text before each quoted value and the value. *)
Lemma hashed_payload_eq c l a g now :
  hashed_payload (string_request c l a g) now =
  ((js "{" ++ quote (js "context") ++ js ":" ++ [34%N]) ++
  quote_units c ++ 34%N ::
  (js "," ++ quote (js "logic") ++ js ":" ++ [34%N]) ++
  quote_units l ++ 34%N ::
  (js "," ++ quote (js "action") ++ js ":" ++ [34%N]) ++
  quote_units a ++ 34%N ::
  (js "," ++ quote (js "agent_id") ++ js ":") ++
  stringify_value (from_option JValue JNull (VString <$> truthy g)) ++
  (js "," ++ quote (js "timestamp_ms") ++ js ":") ++
  js (pretty now) ++ js "}")%list.
Proof.
  unfold hashed_payload, JSON_stringify, string_request.
  cbn [context logic action agent_id]. rewrite or_null_string.
  cbn [fmap list_fmap join_members fst snd stringify_value stringify].
  unfold quote. rewrite <- !app_assoc. cbn [app js map list_ascii_of_string].
  reflexivity.
Qed.

(** Two calls of [hashWitnessRequest] on decision records whose members are
    strings hash the same text only if they were given the same context,
    logic and action, the same agent (an absent and an empty [agent_id] both
    count as none) and the same time, and then they do: the text
    [JSON.stringify] builds can be read back, whatever quotes, backslashes,
    control characters or surrogates the fields contain. *)
Theorem hashed_payload_determines_the_request c1 l1 a1 g1 t1 c2 l2 a2 g2 t2 :
  hashed_payload (string_request c1 l1 a1 g1) t1 =
    hashed_payload (string_request c2 l2 a2 g2) t2 <->
  c1 = c2 /\ l1 = l2 /\ a1 = a2 /\ truthy g1 = truthy g2 /\ t1 = t2.
Proof.
  split.
  - rewrite !hashed_payload_eq. intros H.
    apply app_inv_head in H. apply quote_units_inj in H as [Hc H].
    apply app_inv_head in H. apply quote_units_inj in H as [Hl H].
    apply app_inv_head in H. apply quote_units_inj in H as [Ha H].
    apply app_inv_head in H.
    apply agent_inj in H as [Hg H]. apply app_inv_head in H.
    apply app_inv_tail, js_inj in H. by apply (inj pretty) in H.
  - intros (-> & -> & -> & Hg & ->). rewrite !hashed_payload_eq. by rewrite Hg.
Qed.

End Payload.

End PayloadFacts.
